(** * CasparCG server: video decode worker and output dispatcher

    A shallow embedding of

    - [modules/ffmpeg/producer/video/video_decoder.cpp]
      ([video_decoder::implementation]: [decode], [run], [dup_frame]), and
    - [src/core/consumer/output.cpp]
      ([output::impl]: [add], [remove], [operator()]),

    together with the properties of the two components that the
    specification states.  What the two files take from headers and
    libraries that are not part of them (the codec, the allocator, the
    consumers, the format descriptor) is gathered in a class of each
    module; calls into consumers, the mutex and the clock are recorded as
    events.  The definitions come first, the properties after them. *)

From stdpp Require Import base decidable option list sorting gmap fin_maps strings pretty.
From Stdlib Require Import ZArith QArith.QArith_base QArith.Qround Lia.

Local Open Scope Z_scope.

(** ** [std::map<int, T>]: an association list with strictly increasing keys *)

Module std_map.
Section std_map.
Context {A : Type}.

Definition keys (m : list (Z * A)) : list Z := m.*1.

(** The container's invariant: keys are unique and iteration is in
    ascending key order. *)
Definition wf (m : list (Z * A)) : Prop := StronglySorted Z.lt (keys m).

Fixpoint find (k : Z) (m : list (Z * A)) : option A :=
  match m with
  | [] => None
  | (k', v) :: m' => if decide (k = k') then Some v else find k m'
  end.

(** [emplace] keeps an existing entry. *)
Fixpoint emplace (k : Z) (v : A) (m : list (Z * A)) : list (Z * A) :=
  match m with
  | [] => [(k, v)]
  | (k', v') :: m' =>
      if decide (k < k') then (k, v) :: m
      else if decide (k = k') then m
      else (k', v') :: emplace k v m'
  end.

(** [erase(key)]. *)
Definition erase (k : Z) (m : list (Z * A)) : list (Z * A) :=
  filter (λ p, p.1 ≠ k) m.

End std_map.
End std_map.

(** ** The output dispatcher, [output::impl] *)

Module output.

Inductive future_bool :=
| ready (b : bool)        (* [get()] returns [b] *)
| broken.                 (* [get()] rethrows the consumer's exception *)

Inductive send_result :=
| send_throws
| send_returns (fut : future_bool).

Global Instance future_bool_eq_dec : EqDecision future_bool.
Proof. solve_decision. Defined.
Global Instance send_result_eq_dec : EqDecision send_result.
Proof. solve_decision. Defined.

Inductive completion := returns | throws.

(** [const_frame]: [None] is the empty frame ([!input_frame]). *)
Record frame := { frame_size : Z; frame_tag : Z }.
Definition const_frame := option frame.

(** What the translation unit takes from headers that are not part of it.
    Double precision arithmetic is not modelled: the type and the three
    operations of [static_cast<int>(1e6 / format_desc_.fps)] are fields.
    [video_format_desc] and its [operator!=] come from video_format.h;
    [monitor_state] is the value type of [monitor::state] (monitor.h), and
    [state_] is used as a map from keys to such values ([clear],
    [insert_or_assign]). *)
Class externals := {
  double : Type;
  double_1e6 : double;
  double_div : double → double → double;
  static_cast_int : double → Z;
  video_format_desc : Type;
  desc_size : video_format_desc → Z;
  desc_fps : video_format_desc → double;
  format_desc_neq : video_format_desc → video_format_desc → bool;
  monitor_state : Type;
}.

Section output.
Context `{!externals}.

(** [frame_consumer] (frame_consumer.h): a consumer is given by what its
    member functions answer. [initialize] answers [false] when it
    throws. *)
Record frame_consumer := {
  initialize : video_format_desc → Z → bool;
  send : frame → send_result;
  state : monitor_state;
  has_synchronization_clock : bool;
  index : Z;
}.

(** [time_point_t], in microseconds. *)
Definition time_point_t := Z.

Record impl := {
  state_ : gmap string monitor_state;
  channel_index_ : Z;
  format_desc_ : video_format_desc;
  consumers_ : list (Z * frame_consumer);
  time_ : option time_point_t;
}.

(** What [operator()], [add] and [remove] do to the outside, in order.
    [ev_lock]/[ev_unlock] are the construction and destruction of a
    [std::lock_guard] on [consumers_mutex_]. *)
Inductive event :=
| ev_lock
| ev_unlock
| ev_copy (ports : list Z)
| ev_initialize (port : Z) (format_desc : video_format_desc) (channel : Z)
| ev_send (port : Z) (input_frame : frame)
| ev_get (port : Z)
| ev_erase (port : Z)
| ev_log_exception
| ev_log_warning (msg : string)
| ev_now
| ev_sleep_until (t : time_point_t).

Definition print (self : impl) : string :=
  "output[" +:+ pretty (channel_index_ self) +:+ "]".

Definition set_consumers (self : impl) (cs : list (Z * frame_consumer)) : impl :=
  {| state_ := state_ self; channel_index_ := channel_index_ self;
     format_desc_ := format_desc_ self; consumers_ := cs; time_ := time_ self |}.

Definition remove (index : Z) (self : impl) : impl * list event :=
  match std_map.find index (consumers_ self) with
  | Some _ =>
      (set_consumers self (std_map.erase index (consumers_ self)),
       [ev_lock; ev_erase index; ev_unlock])
  | None => (self, [ev_lock; ev_unlock])
  end.

Definition add (index : Z) (consumer : frame_consumer) (self : impl)
  : impl * list event * completion :=
  let '(self1, evs) := remove index self in
  let init := ev_initialize index (format_desc_ self1) (channel_index_ self1) in
  if initialize consumer (format_desc_ self1) (channel_index_ self1) then
    (set_consumers self1 (std_map.emplace index consumer (consumers_ self1)),
     evs ++ [init; ev_lock; ev_unlock], returns)
  else (self1, evs ++ [init], throws).

(** The loop of the format change branch, over the live registry. *)
Fixpoint initialize_each (format_desc : video_format_desc)
    (cs : list (Z * frame_consumer)) : list (Z * frame_consumer) * list event :=
  match cs with
  | [] => ([], [])
  | (i, c) :: rest =>
      let '(rest', evs) := initialize_each format_desc rest in
      if initialize c format_desc i
      then ((i, c) :: rest', ev_initialize i format_desc i :: evs)
      else (rest', ev_initialize i format_desc i :: ev_log_exception :: ev_erase i :: evs)
  end.

(** The first loop of the delivery branch: it walks [consumers_] itself,
    erases on a throwing [send], and collects the futures. *)
Fixpoint send_each (input_frame : frame) (cs : list (Z * frame_consumer))
    (futures : list (Z * future_bool))
  : list (Z * frame_consumer) * list (Z * future_bool) * list event :=
  match cs with
  | [] => ([], futures, [])
  | (i, c) :: rest =>
      match send c input_frame with
      | send_returns fut =>
          let '(rest', futures', evs) :=
            send_each input_frame rest (std_map.emplace i fut futures) in
          ((i, c) :: rest', futures', ev_send i input_frame :: evs)
      | send_throws =>
          let '(rest', futures', evs) := send_each input_frame rest futures in
          (rest', futures', ev_send i input_frame :: ev_log_exception :: ev_erase i :: evs)
      end
  end.

(** The second loop: wait for each future in key order. *)
Fixpoint await_each (futures : list (Z * future_bool))
    (cs : list (Z * frame_consumer)) : list (Z * frame_consumer) * list event :=
  match futures with
  | [] => (cs, [])
  | (i, fut) :: rest =>
      match fut with
      | ready true =>
          let '(cs', evs) := await_each rest cs in (cs', ev_get i :: evs)
      | ready false =>
          let '(cs', evs) := await_each rest (std_map.erase i cs) in
          (cs', ev_get i :: ev_erase i :: evs)
      | broken =>
          let '(cs', evs) := await_each rest (std_map.erase i cs) in
          (cs', ev_get i :: ev_log_exception :: ev_erase i :: evs)
      end
  end.

(** A consumer takes the frame when [send] returns a future that
    resolves to [true]. *)
Definition accepts (input_frame : frame) (c : frame_consumer) : bool :=
  match send c input_frame with
  | send_returns (ready true) => true
  | _ => false
  end.

Definition port_key (i : Z) : string := "port/" +:+ pretty i.

(** [state_.clear()] followed by the [insert_or_assign] loop. *)
Definition collect_state (cs : list (Z * frame_consumer)) : gmap string monitor_state :=
  foldl (λ st p, <[port_key p.1 := state p.2]> st) ∅ cs.

Definition needs_sync (cs : list (Z * frame_consumer)) : bool :=
  forallb (λ p, negb (has_synchronization_clock p.2)) cs.

Definition period (format_desc : video_format_desc) : Z :=
  static_cast_int (double_div double_1e6 (desc_fps format_desc)).

(** Move construction of a [boost::optional<time_point_t>] from [source]:
    the new optional, and what is left in [source]. The constructor moves
    the contained value and does not disengage the source (by its
    postcondition the new optional and the source are engaged alike); a
    time point is trivially copyable, so the source keeps its value. *)
Definition move_optional (source : option time_point_t)
  : option time_point_t * option time_point_t :=
  (source, source).

(** [output::impl::operator()]. [now] is what
    [high_resolution_clock::now()] answers if it is asked. *)
Definition dispatch (now : time_point_t) (self : impl)
    (input_frame : const_frame) (format_desc : video_format_desc)
  : impl * list event :=
  match input_frame with
  | None => (self, [])
  | Some fr =>
      if negb (frame_size fr =? desc_size (format_desc_ self))
      then (self, [ev_log_warning (print self +:+ " Invalid input frame size.")])
      else
        let '(time, moved_from) := move_optional (time_ self) in
        if format_desc_neq (format_desc_ self) format_desc then
          let '(cs, evs) := initialize_each format_desc (consumers_ self) in
          ({| state_ := state_ self; channel_index_ := channel_index_ self;
              format_desc_ := format_desc; consumers_ := cs; time_ := None |},
           [ev_lock] ++ evs ++ [ev_unlock])
        else
          let consumers := consumers_ self in
          let '(cs1, futures, evs1) := send_each fr (consumers_ self) [] in
          let '(cs2, evs2) := await_each futures cs1 in
          let st := collect_state cs2 in
          let '(time', evs3) :=
            if needs_sync cs2 then
              match time with
              | None => (Some (now + period (format_desc_ self)), [ev_now])
              | Some t => (Some (t + period (format_desc_ self)), [ev_sleep_until t])
              end
            else (moved_from, []) in
          ({| state_ := st; channel_index_ := channel_index_ self;
              format_desc_ := format_desc_ self; consumers_ := cs2; time_ := time' |},
           [ev_lock; ev_copy (std_map.keys consumers); ev_unlock] ++ evs1 ++ evs2 ++ evs3)
  end.

(** *** Vocabulary of the statements below *)

(** A delivery tick: the frame is there, has the size of the current
    format, and the format is the current one. *)
Definition delivery_tick (self : impl) (input_frame : const_frame)
    (format_desc : video_format_desc) (fr : frame) : Prop :=
  input_frame = Some fr ∧
  frame_size fr = desc_size (format_desc_ self) ∧
  format_desc_neq (format_desc_ self) format_desc = false.

(** A format change tick: the same, with another format. *)
Definition format_change_tick (self : impl) (input_frame : const_frame)
    (format_desc : video_format_desc) (fr : frame) : Prop :=
  input_frame = Some fr ∧
  frame_size fr = desc_size (format_desc_ self) ∧
  format_desc_neq (format_desc_ self) format_desc = true.

Definition sent (fr : frame) (p : Z * frame_consumer) : option (Z * future_bool) :=
  match send p.2 fr with
  | send_returns fut => Some (p.1, fut)
  | send_throws => None
  end.

Definition send_events (fr : frame) (p : Z * frame_consumer) : list event :=
  match send p.2 fr with
  | send_returns _ => [ev_send p.1 fr]
  | send_throws => [ev_send p.1 fr; ev_log_exception; ev_erase p.1]
  end.

Definition await_events (q : Z * future_bool) : list event :=
  match q.2 with
  | ready true => [ev_get q.1]
  | ready false => [ev_get q.1; ev_erase q.1]
  | broken => [ev_get q.1; ev_log_exception; ev_erase q.1]
  end.

Definition initialize_events (format_desc : video_format_desc)
    (p : Z * frame_consumer) : list event :=
  if initialize p.2 format_desc p.1
  then [ev_initialize p.1 format_desc p.1]
  else [ev_initialize p.1 format_desc p.1; ev_log_exception; ev_erase p.1].

(** The keys of the futures that do not resolve to [true]. *)
Definition failed_keys (futures : list (Z * future_bool)) : list Z :=
  (filter (λ q, q.2 ≠ ready true) futures).*1.

Definition sends_of (tr : list event) : list (Z * frame) :=
  omap (λ e, match e with ev_send i fr => Some (i, fr) | _ => None end) tr.

Definition initializations_of (tr : list event) : list (Z * video_format_desc * Z) :=
  omap (λ e, match e with ev_initialize i fmt ch => Some (i, fmt, ch) | _ => None end) tr.

Definition is_send (e : event) : bool :=
  match e with ev_send _ _ => true | _ => false end.
Definition is_get (e : event) : bool :=
  match e with ev_get _ => true | _ => false end.
Definition is_erase (e : event) : bool :=
  match e with ev_erase _ => true | _ => false end.
Definition is_lock (e : event) : bool :=
  match e with ev_lock | ev_unlock => true | _ => false end.
Definition is_wait (e : event) : bool :=
  match e with ev_sleep_until _ => true | _ => false end.

(** What a format change tick leaves behind: every registered consumer
    was initialized with the new format and its own index, under the
    lock and without any [send]; those that threw are gone; the format is
    the new one and the deadline is unset. *)
Definition reconfigured (self : impl) (format_desc : video_format_desc)
    (r : impl * list event) : Prop :=
  r.2 = [ev_lock] ++ flat_map (initialize_events format_desc) (consumers_ self)
        ++ [ev_unlock]
  ∧ initializations_of r.2 = (λ p, (p.1, format_desc, p.1)) <$> consumers_ self
  ∧ Forall (λ e, is_send e = false) r.2
  ∧ consumers_ r.1
    = filter (λ p, initialize p.2 format_desc p.1 = true) (consumers_ self)
  ∧ format_desc_ r.1 = format_desc
  ∧ time_ r.1 = None
  ∧ state_ r.1 = state_ self.

(** The event of the pacing step when the dispatcher paces itself. *)
Definition pacing_event (time : option time_point_t) : event :=
  match time with
  | None => ev_now
  | Some t => ev_sleep_until t
  end.

(** "All results are waited for before any eviction": no [get] after an
    [erase]. *)
Definition awaits_before_evictions (tr : list event) : Prop :=
  ∀ pre post i, tr = pre ++ ev_erase i :: post → Forall (λ e, is_get e = false) post.

End output.
End output.

(** ** The decode worker, [video_decoder::implementation] *)

Module video_decoder.

(** [core::pixel_format_desc] and its planes. *)
Record plane := {
  plane_linesize : Z;
  plane_width : Z;
  plane_height : Z;
  plane_size : Z;
  plane_channels : Z;
}.

Record pixel_format_desc := {
  pix_fmt : Z;
  planes : list plane;
}.

(** The fields of an [AVFrame] the worker touches. [data] and [linesize]
    are the pointer and stride arrays; pointers are addresses, 0 is
    [nullptr]. *)
Record AVFrame := {
  data : list Z;
  linesize : list Z;
  format : Z;
  width : Z;
  height : Z;
  interlaced_frame : Z;
  repeat_pict : Z;
}.

Definition set_data (f : AVFrame) (d : list Z) : AVFrame :=
  {| data := d; linesize := linesize f; format := format f; width := width f;
     height := height f; interlaced_frame := interlaced_frame f;
     repeat_pict := repeat_pict f |}.

Record AVPacket := {
  stream_index : Z;
  pkt_data : list Z;
}.

Definition pkt_size (pkt : AVPacket) : Z := Z.of_nat (length (pkt_data pkt)).

(** The packets a worker receives. The source compares the received
    pointer with the reserved instances [loop_packet(index)] and
    [eof_packet(index)] of util.h; here the two sentinels are constructors
    of their own. *)
Inductive packet :=
| data_packet (pkt : AVPacket)
| loop_packet (index : Z)
| eof_packet (index : Z).

Global Instance AVPacket_eq_dec : EqDecision AVPacket.
Proof. solve_decision. Defined.
Global Instance packet_eq_dec : EqDecision packet.
Proof. solve_decision. Defined.

(** [*packet]: the [AVPacket] behind the pointer. *)
Definition deref (p : packet) : AVPacket :=
  match p with
  | data_packet pkt => pkt
  | loop_packet i | eof_packet i => {| stream_index := i; pkt_data := [] |}
  end.

(** What [avcodec_decode_video2] hands back: its return value, the
    [frame_finished] flag and the picture written to the frame. *)
Record decode_result := {
  ret : Z;
  frame_finished : Z;
  picture : AVFrame;
}.

Definition CODEC_CAP_DELAY : Z := 0x0020.

(** What the translation unit takes from elsewhere: the ticket type of the
    element pairs with its default constructor [ticket_t()], the codec
    (libavcodec), [get_pixel_format_desc] (util.h), the allocator (TBB),
    [fast_memcpy_w_align_hack] (memcpy.h) and the width of [size_t].
    [scalable_aligned_malloc] sees the allocated blocks and answers 0 when
    it fails. *)
Class externals := {
  ticket_t : Type;
  ticket_default : ticket_t;
  AVCodecContext : Type;
  avcodec_decode_video2 : AVCodecContext → AVPacket → AVCodecContext * decode_result;
  avcodec_flush_buffers : AVCodecContext → AVCodecContext;
  capabilities : AVCodecContext → Z;
  get_pixel_format_desc : Z → Z → Z → pixel_format_desc;
  scalable_aligned_malloc : gmap Z Z → Z → Z → Z;
  fast_memcpy_w_align_hack : Z → Z → Z → Z;
  size_t_bits : Z;
}.

(** The memory the worker and the holders of its frames share: the blocks
    obtained from [scalable_aligned_malloc] with their sizes, the
    [AVFrame] objects by address, and the arguments of the calls of
    [scalable_aligned_free] so far. An [AVFrame] object stays in [frames]:
    every deleter below holds a [shared_ptr] to its frame, so the object
    outlives the deleter's body. *)
Record memory := {
  blocks : gmap Z Z;
  frames : gmap Z AVFrame;
  freed : list Z;
}.

(** The closure [dup_frame] installs as deleter, with its captures. *)
Record deleter := {
  d_frame : Z;
  d_org_ptrs : list Z;
  d_real_ptrs : list Z;
  d_count : nat;
}.

(** A [safe_ptr<AVFrame>] with a deleter, and the number of holders of its
    control block. *)
Record safe_ptr := {
  get : Z;
  get_deleter : deleter;
  use_count : nat;
}.

Definition set_use_count (p : safe_ptr) (n : nat) : safe_ptr :=
  {| get := get p; get_deleter := get_deleter p; use_count := n |}.

(** [parallel_for<size_t>(first, first + n, body)], one index after the
    other; the bodies below touch index [n] of their arrays only. *)
Fixpoint parallel_for {St : Type} (first : nat) (n : nat)
    (body : nat → St → option St) (s : St) : option St :=
  match n with
  | O => Some s
  | S n' => s' ← body first s; parallel_for (S first) n' body s'
  end.

Inductive video_element :=
| frame_element (frame : safe_ptr)
| loop_video
| eof_video.

Inductive log_entry :=
| log_debug (msg : string)
| log_warning (msg : string)
| log_exception.

(** How one pass of the body of [while(true)] ends. [exhausted] and
    [crashed] are the model's: the flush loop did not end within the fuel,
    and undefined behaviour (a failed allocation is dereferenced). *)
Inductive control := next | break | caught | exhausted | crashed.

Inductive status := terminated | receiving | diverged | undefined.

Section video_decoder.
Context `{!externals}.

Definition source_element_t : Type := packet * ticket_t.
Definition target_element_t : Type := video_element * ticket_t.

Definition size_t (z : Z) : Z := z mod 2 ^ size_t_bits.

Definition scalable_aligned_free (p : Z) (m : memory) : option memory :=
  match blocks m !! p with
  | Some _ => Some {| blocks := delete p (blocks m); frames := frames m;
                      freed := freed m ++ [p] |}
  | None => None
  end.

(** The body of the [parallel_for] of [dup_frame] at plane [n]. The
    state is the memory with [org_ptrs] and [real_ptrs]. *)
Definition dup_plane (frame : Z) (desc : pixel_format_desc) (n : nat)
    (s : memory * (list Z * list Z)) : option (memory * (list Z * list Z)) :=
  let '(m, (org_ptrs, real_ptrs)) := s in
  f ← frames m !! frame;
  ls ← linesize f !! n;
  p ← planes desc !! n;
  org ← data f !! n;
  _ ← org_ptrs !! n;
  let size := size_t (ls * plane_height p) in
  let real := scalable_aligned_malloc (blocks m) (size_t (size + 16)) 32 in
  if decide (real = 0) then None
  else
    let copy := fast_memcpy_w_align_hack real org size in
    Some ({| blocks := <[real := size_t (size + 16)]> (blocks m);
             frames := <[frame := set_data f (<[n := copy]> (data f))]> (frames m);
             freed := freed m |},
          (<[n := org]> org_ptrs, <[n := real]> real_ptrs)).

(** [dup_frame]. The two [std::array<uint8_t*, 4>] start with
    indeterminate entries, written 0 here; only the entries below
    [count] are ever read. *)
Definition dup_frame (m : memory) (frame : Z) : option (memory * safe_ptr) :=
  f ← frames m !! frame;
  let desc := get_pixel_format_desc (format f) (width f) (height f) in
  let count := length (planes desc) in
  '(m', (org_ptrs, real_ptrs)) ←
    parallel_for 0 count (dup_plane frame desc) (m, (replicate 4 0, replicate 4 0));
  Some (m', {| get := frame;
               get_deleter := {| d_frame := frame; d_org_ptrs := org_ptrs;
                                 d_real_ptrs := real_ptrs; d_count := count |};
               use_count := 1 |}).

(** The body of the deleter's [for] loop at [n]. *)
Definition delete_plane (d : deleter) (n : nat) (m : memory) : option memory :=
  real ← d_real_ptrs d !! n;
  org ← d_org_ptrs d !! n;
  m1 ← scalable_aligned_free real m;
  f ← frames m1 !! d_frame d;
  _ ← data f !! n;
  Some {| blocks := blocks m1;
          frames := <[d_frame d := set_data f (<[n := org]> (data f))]> (frames m1);
          freed := freed m1 |}.

Definition run_deleter (d : deleter) (m : memory) : option memory :=
  parallel_for 0 (d_count d) (delete_plane d) m.

(** Copying and dropping a holder of a [safe_ptr]: the deleter runs when
    the count of holders reaches zero. *)
Definition copy (p : safe_ptr) : safe_ptr := set_use_count p (S (use_count p)).

Definition release (p : safe_ptr) (m : memory) : option (safe_ptr * memory) :=
  match use_count p with
  | O => None
  | S O => m' ← run_deleter (get_deleter p) m; Some (set_use_count p 0, m')
  | S n => Some (set_use_count p n, m)
  end.

Fixpoint release_n (k : nat) (p : safe_ptr) (m : memory) : option (safe_ptr * memory) :=
  match k with
  | O => Some (p, m)
  | S k' => '(p', m') ← release p m; release_n k' p' m'
  end.

Record implementation := {
  index_ : Z;
  codec_context_ : AVCodecContext;
  is_progressive_ : bool;
  heap : memory;
  log : list log_entry;
}.

Definition set_codec (self : implementation) (c : AVCodecContext) : implementation :=
  {| index_ := index_ self; codec_context_ := c;
     is_progressive_ := is_progressive_ self; heap := heap self; log := log self |}.

Definition set_heap (self : implementation) (m : memory) : implementation :=
  {| index_ := index_ self; codec_context_ := codec_context_ self;
     is_progressive_ := is_progressive_ self; heap := m; log := log self |}.

Definition set_progressive (self : implementation) (b : bool) : implementation :=
  {| index_ := index_ self; codec_context_ := codec_context_ self;
     is_progressive_ := b; heap := heap self; log := log self |}.

Definition add_log (self : implementation) (e : log_entry) : implementation :=
  {| index_ := index_ self; codec_context_ := codec_context_ self;
     is_progressive_ := is_progressive_ self; heap := heap self;
     log := log self ++ [e] |}.

(** The filter of [source_]. *)
Definition source_ (self : implementation) (element : source_element_t) : bool :=
  bool_decide (stream_index (deref element.1) = index_ self).

(** [avcodec_alloc_frame()]: the address of the new object. *)
Definition avcodec_alloc_frame (m : memory) : Z := fresh (dom (frames m) ∪ {[0]}).

Inductive decoded := threw | no_frame | decoded_frame (frame : Z).

(** [decode]. [THROW_ON_ERROR2] (ffmpeg_error.h) throws on a negative
    return value. The frame object is kept only when it is returned. *)
Definition decode (self : implementation) (pkt : AVPacket) : implementation * decoded :=
  let '(c, r) := avcodec_decode_video2 (codec_context_ self) pkt in
  let self1 := set_codec self c in
  if ret r <? 0 then (self1, threw)
  else if frame_finished r =? 0 then (self1, no_frame)
  else
    let a := avcodec_alloc_frame (heap self1) in
    let m := {| blocks := blocks (heap self1);
                frames := <[a := picture r]> (frames (heap self1));
                freed := freed (heap self1) |} in
    let self2 := set_heap self1 m in
    let self3 :=
      if 0 <? repeat_pict (picture r)
      then add_log self2 (log_warning "[video_decoder]: Field repeat_pict not implemented.")
      else self2 in
    (self3, decoded_frame a).

(** The packet of [av_init_packet] with [data = nullptr], [size = 0]. *)
Definition flush_pkt : AVPacket := {| stream_index := 0; pkt_data := [] |}.

(** The [for] loop of the loop branch; [fuel] bounds its passes. *)
Fixpoint flush_delayed (fuel : nat) (self : implementation) (ticket : ticket_t)
  : implementation * list target_element_t * control :=
  match fuel with
  | O => (self, [], exhausted)
  | S fuel' =>
      match decode self flush_pkt with
      | (self1, threw) => (self1, [], caught)
      | (self1, no_frame) => (self1, [], next)
      | (self1, decoded_frame a) =>
          match dup_frame (heap self1) a with
          | None => (self1, [], crashed)
          | Some (m, p) =>
              let '(self2, out, c) := flush_delayed fuel' (set_heap self1 m) ticket in
              (self2, (frame_element p, ticket) :: out, c)
          end
      end
  end.

(** One pass of the body of [while(true)], after [receive]. *)
Definition handle (fuel : nat) (self : implementation) (element : source_element_t)
  : implementation * list target_element_t * control :=
  let packet := element.1 in
  if decide (packet = loop_packet (index_ self)) then
    let '(self1, out, c) :=
      if decide (Z.land (capabilities (codec_context_ self)) CODEC_CAP_DELAY ≠ 0)
      then flush_delayed fuel self element.2
      else (self, [], next) in
    match c with
    | next =>
        (set_codec self1 (avcodec_flush_buffers (codec_context_ self1)),
         out ++ [(loop_video, ticket_default)], next)
    | _ => (self1, out, c)
    end
  else if decide (packet = eof_packet (index_ self)) then (self, [], break)
  else
    match decode self (deref packet) with
    | (self1, threw) => (self1, [], caught)
    | (self1, no_frame) => (self1, [], next)
    | (self1, decoded_frame a) =>
        let progressive :=
          match frames (heap self1) !! a with
          | Some f => bool_decide (interlaced_frame f = 0)
          | None => is_progressive_ self1
          end in
        let self2 := set_progressive self1 progressive in
        match dup_frame (heap self2) a with
        | None => (self2, [], crashed)
        | Some (m, p) => (set_heap self2 m, [(frame_element p, element.2)], next)
        end
    end.

(** [while(true)] over the elements [receive(source_)] hands out; with
    none left the worker waits in [receive]. *)
Fixpoint receive_loop (fuel : nat) (self : implementation) (source : list source_element_t)
  : implementation * list target_element_t * control :=
  match source with
  | [] => (self, [], next)
  | element :: rest =>
      let '(self1, out, c) := handle fuel self element in
      match c with
      | next =>
          let '(self2, out2, c2) := receive_loop fuel self1 rest in
          (self2, out ++ out2, c2)
      | _ => (self1, out, c)
      end
  end.

(** [run]: the loop inside [try], the handler, the final [send] and
    [done()]. [source] is what is offered to [source_]. *)
Definition run (fuel : nat) (self : implementation) (source : list source_element_t)
  : implementation * list target_element_t * status :=
  let '(self1, out, c) := receive_loop fuel self (filter (λ e, source_ self e = true) source) in
  match c with
  | break => (self1, out ++ [(eof_video, ticket_default)], terminated)
  | caught => (add_log self1 log_exception, out ++ [(eof_video, ticket_default)], terminated)
  | next => (self1, out, receiving)
  | exhausted => (self1, out, diverged)
  | crashed => (self1, out, undefined)
  end.

(** *** Vocabulary of the statements below *)

Definition has_delay (self : implementation) : Prop :=
  Z.land (capabilities (codec_context_ self)) CODEC_CAP_DELAY ≠ 0.

(** The flush decodes of a loop packet, as they happen: zero-length
    decodes hand out frames, each of which is duplicated, until one
    reports no frame ([next]) or fails ([caught]). *)
Inductive flushes : implementation → list safe_ptr → control → implementation → Prop :=
| flushes_no_frame self self1 :
    decode self flush_pkt = (self1, no_frame) →
    flushes self [] next self1
| flushes_threw self self1 :
    decode self flush_pkt = (self1, threw) →
    flushes self [] caught self1
| flushes_frame self self1 a m p ps c self2 :
    decode self flush_pkt = (self1, decoded_frame a) →
    dup_frame (heap self1) a = Some (m, p) →
    flushes (set_heap self1 m) ps c self2 →
    flushes self (p :: ps) c self2.

(** "Every marker carries the ticket": all elements have ticket [t]. *)
Definition carries_ticket (t : ticket_t) (out : list target_element_t) : Prop :=
  Forall (λ e, e.2 = t) out.

(** "One LoopSignal is emitted and the worker stays alive." *)
Definition loop_signalled (r : implementation * list target_element_t * control) : Prop :=
  r.2 = next ∧ ∃ frames_out, r.1.2 = frames_out ++ [(loop_video, ticket_default)].

(** The allocator hands out nothing that is still allocated. *)
Definition allocator_sound : Prop :=
  ∀ allocated size alignment,
    scalable_aligned_malloc allocated size alignment = 0
    ∨ allocated !! scalable_aligned_malloc allocated size alignment = None.

(** The byte counts of [dup_frame] do not wrap around. *)
Definition sizes_in_range (f : AVFrame) (desc : pixel_format_desc) : Prop :=
  ∀ n ls pl, linesize f !! n = Some ls → planes desc !! n = Some pl →
    0 ≤ ls * plane_height pl ∧ ls * plane_height pl + 16 < 2 ^ size_t_bits.

(** [bufs] are the blocks the duplication of [f] took [m] to [m1] with:
    one per plane, new, pairwise distinct, of [linesize * height + 16]
    bytes, and nothing else changed among the blocks. *)
Definition allocated_by (m m1 : memory) (f : AVFrame) (desc : pixel_format_desc)
    (bufs : list Z) : Prop :=
  length bufs = length (planes desc)
  ∧ NoDup bufs
  ∧ (∀ n r, bufs !! n = Some r →
       blocks m !! r = None
       ∧ ∃ ls pl, linesize f !! n = Some ls ∧ planes desc !! n = Some pl
                  ∧ blocks m1 !! r = Some (ls * plane_height pl + 16))
  ∧ (∀ r, r ∉ bufs → blocks m1 !! r = blocks m !! r)
  ∧ freed m1 = freed m.

(** A memory in which the blocks [bufs] and the frame object at [a] are
    as in [m1], whatever else happened since. *)
Definition keeps (m1 m' : memory) (bufs : list Z) (a : Z) : Prop :=
  (∀ r, r ∈ bufs → blocks m' !! r = blocks m1 !! r)
  ∧ frames m' !! a = frames m1 !! a.

(** The invariant of the loop of [dup_frame] before plane [k], from memory
    [m] with the frame [f] at [a]. *)
Definition dup_inv (m : memory) (a : Z) (f : AVFrame) (desc : pixel_format_desc)
    (k : nat) (s : memory * (list Z * list Z)) : Prop :=
  length s.2.1 = 4%nat ∧ length s.2.2 = 4%nat
  ∧ (k ≤ length (data f))%nat ∧ (k ≤ 4)%nat
  ∧ NoDup (take k s.2.2)
  ∧ take k s.2.1 = take k (data f)
  ∧ (∀ n r, take k s.2.2 !! n = Some r →
       blocks m !! r = None
       ∧ ∃ ls pl, linesize f !! n = Some ls ∧ planes desc !! n = Some pl
                  ∧ blocks s.1 !! r
                    = Some (size_t (size_t (ls * plane_height pl) + 16)))
  ∧ (∀ r, r ∉ take k s.2.2 → blocks s.1 !! r = blocks m !! r)
  ∧ freed s.1 = freed m
  ∧ ∃ dk, frames s.1 = <[a := set_data f dk]> (frames m)
          ∧ length dk = length (data f)
          ∧ drop k dk = drop k (data f).

(** The invariant of the loop of the deleter before plane [k], from memory
    [m'] in which the frame at [a] is [f] with plane pointers [d1]. *)
Definition delete_inv (m' : memory) (a : Z) (f : AVFrame) (d1 bufs : list Z)
    (k : nat) (mk : memory) : Prop :=
  (∀ r, blocks mk !! r = if decide (r ∈ take k bufs) then None else blocks m' !! r)
  ∧ freed mk = freed m' ++ take k bufs
  ∧ ∃ dk, frames mk = <[a := set_data f dk]> (frames m')
          ∧ length dk = length (data f)
          ∧ take k dk = take k (data f)
          ∧ drop k dk = drop k d1.

(** With [holders] holders of [p] in memory [m']: dropping fewer than
    all of them changes nothing; dropping the last one runs the deleter,
    which frees exactly [bufs], each once, and puts the plane pointers of
    [f] back into the frame object at [a]; after that no holder is left
    to drop. *)
Definition released_by_last (p : safe_ptr) (holders : nat) (m' : memory)
    (bufs : list Z) (a : Z) (f : AVFrame) : Prop :=
  (∀ k, (k < holders)%nat →
     release_n k (set_use_count p holders) m'
     = Some (set_use_count p (holders - k), m'))
  ∧ ∃ m2, release_n holders (set_use_count p holders) m' = Some (set_use_count p 0, m2)
      ∧ (∀ r, blocks m2 !! r = if decide (r ∈ bufs) then None else blocks m' !! r)
      ∧ frames m2 = <[a := f]> (frames m')
      ∧ freed m2 = freed m' ++ bufs
      ∧ release (set_use_count p 0) m2 = None.

End video_decoder.
End video_decoder.

(** ** Concrete environments, for running the two models *)

Module output_sample.
Import output.

Record format_desc := { format : Z; size : Z; fps : Q }.

(** Conversion of a rational to [int] truncates toward zero. *)
Definition trunc (q : Q) : Z := if Qle_bool 0 q then Qfloor q else Qceiling q.

Definition ext : externals :=
  {| double := Q;
     double_1e6 := 1000000 # 1;
     double_div := Qdiv;
     static_cast_int := trunc;
     video_format_desc := format_desc;
     desc_size := size;
     desc_fps := fps;
     format_desc_neq := λ a b, negb (format a =? format b);
     monitor_state := string |}.
#[local] Existing Instance ext.

Definition pal : format_desc := {| format := 1; size := 1658880; fps := 25 # 1 |}.
Definition x720p5000 : format_desc := {| format := 2; size := 3686400; fps := 50 # 1 |}.

Definition pal_frame : frame := {| frame_size := 1658880; frame_tag := 0 |}.
Definition hd_frame : frame := {| frame_size := 3686400; frame_tag := 0 |}.

(** A consumer with fixed answers. *)
Definition consumer (i : Z) (init : bool) (answer : send_result) (clock : bool)
  : @frame_consumer ext :=
  {| initialize := λ _ _, init; send := λ _, answer;
     state := "consumer " +:+ pretty i;
     has_synchronization_clock := clock; index := i |}.

Definition accepting (i : Z) := consumer i true (send_returns (ready true)) false.
Definition clocked (i : Z) := consumer i true (send_returns (ready true)) true.
Definition refusing (i : Z) := consumer i true (send_returns (ready false)) false.
Definition throwing (i : Z) := consumer i true send_throws false.
Definition stubborn (i : Z) := consumer i false (send_returns (ready true)) false.

Definition make (cs : list (Z * @frame_consumer ext)) (time : option Z) : @impl ext :=
  {| state_ := ∅; channel_index_ := 1; format_desc_ := pal;
     consumers_ := cs; time_ := time |}.
End output_sample.

Module video_decoder_sample.
Import video_decoder.

(** A codec that answers its calls from a script, whatever the packet;
    past the script it reports no frame. *)
Record scripted := { answers : list decode_result; caps : Z }.

Definition blank : AVFrame :=
  {| data := [0; 0; 0; 0]; linesize := [0; 0; 0; 0]; format := 0; width := 0;
     height := 0; interlaced_frame := 0; repeat_pict := 0 |}.

Definition answer (c : scripted) (pkt : AVPacket) : scripted * decode_result :=
  match answers c with
  | [] => (c, {| ret := 0; frame_finished := 0; picture := blank |})
  | r :: rest => ({| answers := rest; caps := caps c |}, r)
  end.

(** Format 0 is packed BGRA, every other format planar 4:2:0. *)
Definition pixel_format (fmt w h : Z) : pixel_format_desc :=
  let pl ls w h := {| plane_linesize := ls; plane_width := w; plane_height := h;
                      plane_size := ls * h; plane_channels := 1 |} in
  {| pix_fmt := fmt;
     planes := if fmt =? 0 then [pl (w * 4) w h]
               else [pl w w h; pl (w / 2) (w / 2) (h / 2); pl (w / 2) (w / 2) (h / 2)] |}.

(** An allocator that never fails and never hands out a live block. *)
Definition malloc (allocated : gmap Z Z) (size alignment : Z) : Z :=
  fresh (dom allocated ∪ {[0]}).

Definition ext : externals :=
  {| ticket_t := option nat;
     ticket_default := None;
     AVCodecContext := scripted;
     avcodec_decode_video2 := answer;
     avcodec_flush_buffers := λ c, c;
     capabilities := caps;
     get_pixel_format_desc := pixel_format;
     scalable_aligned_malloc := malloc;
     fast_memcpy_w_align_hack := λ dest src size, dest;
     size_t_bits := 64 |}.
#[local] Existing Instance ext.

Definition yuv (w h : Z) (planes : list Z) (interlaced : Z) : AVFrame :=
  {| data := planes; linesize := [w; w / 2; w / 2; 0]; format := 1; width := w;
     height := h; interlaced_frame := interlaced; repeat_pict := 0 |}.

Definition yuv_picture : AVFrame := yuv 4 2 [100; 200; 300; 0] 0.

Definition got (f : AVFrame) : decode_result :=
  {| ret := 0; frame_finished := 1; picture := f |}.
Definition nothing : decode_result :=
  {| ret := 0; frame_finished := 0; picture := blank |}.
Definition failure : decode_result :=
  {| ret := -1; frame_finished := 0; picture := blank |}.

Definition empty_memory : memory := {| blocks := ∅; frames := ∅; freed := [] |}.

(** A memory with one frame object, at address 1. *)
Definition one_frame (f : AVFrame) : memory :=
  {| blocks := ∅; frames := {[ 1 := f ]}; freed := [] |}.

Definition worker (script : list decode_result) (caps : Z) : @implementation ext :=
  {| index_ := 0; codec_context_ := {| answers := script; caps := caps |};
     is_progressive_ := true; heap := empty_memory; log := [] |}.

Definition pkt (bytes : list Z) : packet :=
  data_packet {| stream_index := 0; pkt_data := bytes |}.
End video_decoder_sample.


(** ** More of the two files: what the properties further below add to
    the vocabulary *)

Module output_more.
Import output.
Section output_more.
Context `{!externals}.

(** The constructor of [output::impl]: no consumer, no state, no
    deadline. *)
Definition construct (format_desc : video_format_desc) (channel_index : Z) : impl :=
  {| state_ := ∅; channel_index_ := channel_index; format_desc_ := format_desc;
     consumers_ := []; time_ := None |}.

(** [add(consumer)] and [remove(consumer)], the overloads that take the
    index from the consumer. *)
Definition add_consumer (consumer : frame_consumer) (self : impl)
  : impl * list event * completion :=
  add (index consumer) consumer self.

Definition remove_consumer (consumer : frame_consumer) (self : impl)
  : impl * list event :=
  remove (index consumer) self.

(** The events of a trace that happen while [consumers_mutex_] is held;
    [held] says whether it is held at the start. *)
Fixpoint under_lock (held : bool) (tr : list event) : list event :=
  match tr with
  | [] => []
  | ev_lock :: tr' => under_lock true tr'
  | ev_unlock :: tr' => under_lock false tr'
  | e :: tr' => if held then e :: under_lock held tr' else under_lock held tr'
  end.

(** The driver thread: one call of [operator()] after the other, each
    with the clock reading it would get. *)
Fixpoint ticks (self : impl)
    (calls : list (time_point_t * const_frame * video_format_desc))
  : impl * list event :=
  match calls with
  | [] => (self, [])
  | (now, input_frame, format_desc) :: rest =>
      let '(self1, tr1) := dispatch now self input_frame format_desc in
      let '(self2, tr2) := ticks self1 rest in
      (self2, tr1 ++ tr2)
  end.

(** The deadlines the calls of [sleep_until] in a trace wait for, and the
    number of times the clock is read. *)
Definition waits_of (tr : list event) : list time_point_t :=
  omap (λ e, match e with ev_sleep_until t => Some t | _ => None end) tr.

Definition clock_reads (tr : list event) : nat :=
  length (omap (λ e, match e with ev_now => Some tt | _ => None end) tr).

(** [n] deadlines from [t] on, one period apart. *)
Definition deadlines (t : time_point_t) (p : Z) (n : nat) : list time_point_t :=
  (λ i : nat, t + Z.of_nat i * p) <$> seq 0 n.

(** What the owner of a dispatcher does with it, one call after the
    other. An [add] that throws leaves the dispatcher as [add] left it. *)
Inductive operation :=
| op_add (index : Z) (consumer : frame_consumer)
| op_add_consumer (consumer : frame_consumer)
| op_remove (index : Z)
| op_remove_consumer (consumer : frame_consumer)
| op_dispatch (now : time_point_t) (input_frame : const_frame)
    (format_desc : video_format_desc).

Definition perform (self : impl) (o : operation) : impl :=
  match o with
  | op_add i c => (add i c self).1.1
  | op_add_consumer c => (add_consumer c self).1.1
  | op_remove i => (remove i self).1
  | op_remove_consumer c => (remove_consumer c self).1
  | op_dispatch now input_frame format_desc =>
      (dispatch now self input_frame format_desc).1
  end.

(** The events that are not part of the two loops over the consumers. *)
Definition quiet (e : event) : bool :=
  match e with
  | ev_send _ _ | ev_get _ | ev_erase _ | ev_log_exception => false
  | _ => true
  end.

(** Every registered consumer takes the frame and none has a
    synchronization clock. *)
Definition steady (fr : frame) (cs : list (Z * frame_consumer)) : Prop :=
  Forall (λ p, accepts fr p.2 = true ∧ has_synchronization_clock p.2 = false) cs.

End output_more.
End output_more.

Module video_decoder_more.
Import video_decoder.
Section video_decoder_more.
Context `{!externals}.

(** From [m] to [m']: every block is still allocated with its size, every
    frame object is as it was, and nothing more has been freed. *)
Definition preserved (m m' : memory) : Prop :=
  (∀ r sz, blocks m !! r = Some sz → blocks m' !! r = Some sz)
  ∧ (∀ a f, frames m !! a = Some f → frames m' !! a = Some f)
  ∧ freed m' = freed m.

Definition is_loop_video (e : target_element_t) : bool :=
  match e.1 with loop_video => true | _ => false end.

Definition is_frame (e : target_element_t) : bool :=
  match e.1 with frame_element _ => true | _ => false end.

(** The number of [loop_video] in an output, and of loop packets of
    stream [index] in a source. *)
Definition loops_out (out : list target_element_t) : nat :=
  length (filter (λ e, is_loop_video e = true) out).

Definition loops_in (index : Z) (source : list source_element_t) : nat :=
  length (filter (λ e : source_element_t, e.1 = loop_packet index) source).

(** The blocks a duplicated frame owns. *)
Definition buffers (p : safe_ptr) : list Z :=
  take (d_count (get_deleter p)) (d_real_ptrs (get_deleter p)).

(** Dropping the only holder of each frame of [ps], in this order. *)
Fixpoint release_all (ps : list safe_ptr) (m : memory) : option memory :=
  match ps with
  | [] => Some m
  | p :: ps' => '(_, m') ← release p m; release_all ps' m'
  end.

End video_decoder_more.
End video_decoder_more.

(** * Properties *)

(** ** [std::map] *)

Module std_map_facts.
Section std_map_facts.
Context {A : Type}.
Implicit Types m : list (Z * A).

Lemma wf_cons_inv k v m :
  std_map.wf ((k, v) :: m) → std_map.wf m ∧ Forall (λ p, k < p.1) m.
Proof.
  unfold std_map.wf, std_map.keys. simpl. intros H.
  apply StronglySorted_inv in H as [Hs Hall]. split; [done|].
  rewrite Forall_fmap in Hall. done.
Qed.

Lemma wf_NoDup m : std_map.wf m → NoDup (std_map.keys m).
Proof.
  induction m as [|[k v] m IH]; intros H; [constructor|].
  apply wf_cons_inv in H as [Hwf Hall].
  unfold std_map.keys in *. simpl. constructor; [|by apply IH].
  intros Hin. apply list_elem_of_fmap in Hin as [[k' v'] [-> Hin]].
  rewrite Forall_forall in Hall. specialize (Hall _ Hin). simpl in Hall. lia.
Qed.

(** Appending at the end is what [emplace] does with a key above all
    others. *)
Lemma emplace_above k v m :
  Forall (λ p, p.1 < k) m → std_map.emplace k v m = m ++ [(k, v)].
Proof.
  induction m as [|[k' v'] m IH]; intros H; [done|].
  apply Forall_cons in H as [Hk H]. simpl in *.
  destruct (decide (k < k')); [lia|].
  destruct (decide (k = k')); [lia|].
  by rewrite IH.
Qed.

Lemma erase_filter k (P : Z * A → Prop) `{!∀ p, Decision (P p)} m :
  std_map.erase k (filter P m) = filter (λ p, P p ∧ p.1 ≠ k) m.
Proof.
  unfold std_map.erase. rewrite list_filter_filter.
  apply list_filter_iff. intros p. tauto.
Qed.

Lemma filter_ext_in (P Q : Z * A → Prop)
    `{!∀ p, Decision (P p)} `{!∀ p, Decision (Q p)} m :
  (∀ p, p ∈ m → P p ↔ Q p) → filter P m = filter Q m.
Proof.
  induction m as [|p m IH]; intros Hext; [done|].
  rewrite !filter_cons.
  assert (P p ↔ Q p) as Hp by (apply Hext; left).
  assert (filter P m = filter Q m) as -> by (apply IH; intros; apply Hext; by right).
  destruct (decide (P p)), (decide (Q p)); tauto.
Qed.

Lemma key_determines m p q :
  std_map.wf m → p ∈ m → q ∈ m → p.1 = q.1 → p = q.
Proof.
  intros Hwf. apply wf_NoDup in Hwf. unfold std_map.keys in Hwf.
  intros Hp Hq Heq.
  apply list_elem_of_lookup in Hp as [i Hi], Hq as [j Hj].
  assert (i = j) as ->; [|congruence].
  eapply NoDup_lookup; [exact Hwf| |]; rewrite list_lookup_fmap.
  - by rewrite Hi.
  - rewrite Hj. simpl. by rewrite Heq.
Qed.
End std_map_facts.
End std_map_facts.

(** ** The output dispatcher *)

Module output_facts.
Import output.
Section output_facts.
Context `{!externals}.
Implicit Types (cs : list (Z * frame_consumer)) (futs : list (Z * future_bool)).

(** *** The three loops *)

Local Ltac settle :=
  simpl in *; subst; repeat case_decide; first [done | congruence | by f_equal].

Lemma initialize_each_consumers format_desc cs :
  (initialize_each format_desc cs).1
  = filter (λ p, initialize p.2 format_desc p.1 = true) cs.
Proof.
  induction cs as [|[i c] cs IH]; [done|]. simpl.
  destruct (initialize_each format_desc cs) as [rest evs]. simpl in IH. subst rest.
  rewrite filter_cons. simpl.
  destruct (initialize c format_desc i); simpl; repeat case_decide; congruence.
Qed.

Lemma initialize_each_events format_desc cs :
  (initialize_each format_desc cs).2 = flat_map (initialize_events format_desc) cs.
Proof.
  induction cs as [|[i c] cs IH]; [done|]. simpl.
  destruct (initialize_each format_desc cs) as [rest evs]. simpl in IH. subst evs.
  unfold initialize_events. simpl.
  by destruct (initialize c format_desc i).
Qed.

Lemma send_each_consumers fr cs futs :
  (send_each fr cs futs).1.1 = filter (λ p, send p.2 fr ≠ send_throws) cs.
Proof.
  revert futs. induction cs as [|[i c] cs IH]; intros futs; [done|]. simpl.
  rewrite filter_cons. simpl.
  destruct (send c fr) as [|fut] eqn:Hs.
  - specialize (IH futs). destruct (send_each fr cs futs) as [[rest f'] evs].
    settle.
  - specialize (IH (std_map.emplace i fut futs)).
    destruct (send_each fr cs _) as [[rest f'] evs]. settle.
Qed.

Lemma send_each_events fr cs futs :
  (send_each fr cs futs).2 = flat_map (send_events fr) cs.
Proof.
  revert futs. induction cs as [|[i c] cs IH]; intros futs; [done|]. simpl.
  unfold send_events. simpl.
  destruct (send c fr) as [|fut] eqn:Hs.
  - specialize (IH futs). destruct (send_each fr cs futs) as [[rest f'] evs].
    simpl in *. by subst.
  - specialize (IH (std_map.emplace i fut futs)).
    destruct (send_each fr cs _) as [[rest f'] evs]. simpl in *. by subst.
Qed.

Lemma send_each_futures fr cs futs :
  std_map.wf cs →
  Forall (λ q, Forall (λ p, q.1 < p.1) cs) futs →
  (send_each fr cs futs).1.2 = futs ++ omap (sent fr) cs.
Proof.
  revert futs. induction cs as [|[i c] cs IH]; intros futs Hwf Hlt.
  { simpl. by rewrite app_nil_r. }
  apply std_map_facts.wf_cons_inv in Hwf as [Hwf Habove].
  simpl. unfold sent. simpl.
  destruct (send c fr) as [|fut] eqn:Hs.
  - specialize (IH futs Hwf).
    destruct (send_each fr cs futs) as [[rest f'] evs]. simpl in *.
    apply IH. eapply Forall_impl; [exact Hlt|].
    intros q Hq. by apply Forall_cons in Hq as [_ Hq].
  - rewrite std_map_facts.emplace_above.
    2:{ eapply Forall_impl; [exact Hlt|]. intros q Hq.
        by apply Forall_cons in Hq as [Hq _]. }
    specialize (IH (futs ++ [(i, fut)]) Hwf).
    destruct (send_each fr cs _) as [[rest f'] evs]. simpl in *.
    rewrite IH; [by rewrite <-app_assoc|].
    apply Forall_app. split.
    + eapply Forall_impl; [exact Hlt|]. intros q Hq.
      by apply Forall_cons in Hq as [_ Hq].
    + by apply Forall_singleton.
Qed.

Lemma await_each_events futs cs :
  (await_each futs cs).2 = flat_map await_events futs.
Proof.
  revert cs. induction futs as [|[i fut] futs IH]; intros cs; [done|]. simpl.
  unfold await_events. simpl.
  destruct fut as [[]|].
  - specialize (IH cs). destruct (await_each futs cs). simpl in *. by subst.
  - specialize (IH (std_map.erase i cs)). destruct (await_each futs _).
    simpl in *. by subst.
  - specialize (IH (std_map.erase i cs)). destruct (await_each futs _).
    simpl in *. by subst.
Qed.

Lemma await_each_consumers futs cs :
  (await_each futs cs).1 = filter (λ p, p.1 ∉ failed_keys futs) cs.
Proof.
  revert cs. induction futs as [|[i fut] futs IH]; intros cs.
  { simpl. induction cs as [|p cs IHcs]; [done|].
    rewrite filter_cons_True; [by f_equal|]. apply not_elem_of_nil. }
  assert (∀ cs', filter (λ p, p.1 ∉ failed_keys futs) (std_map.erase i cs')
                 = filter (λ p, p.1 ∉ i :: failed_keys futs) cs') as Herase.
  { intros cs'. unfold std_map.erase. rewrite list_filter_filter.
    apply list_filter_iff. intros p. rewrite not_elem_of_cons. tauto. }
  simpl. destruct fut as [[]|].
  - specialize (IH cs). destruct (await_each futs cs). simpl in *. subst.
    unfold failed_keys. rewrite filter_cons. settle.
  - specialize (IH (std_map.erase i cs)). destruct (await_each futs _).
    simpl in *. subst. rewrite Herase.
    unfold failed_keys. rewrite filter_cons. settle.
  - specialize (IH (std_map.erase i cs)). destruct (await_each futs _).
    simpl in *. subst. rewrite Herase.
    unfold failed_keys. rewrite filter_cons. settle.
Qed.

(** The registry after both loops: exactly the consumers that accept. *)
Lemma survivors fr cs :
  std_map.wf cs →
  (await_each (send_each fr cs []).1.2 (send_each fr cs []).1.1).1
  = filter (λ p, accepts fr p.2 = true) cs.
Proof.
  intros Hwf.
  rewrite await_each_consumers, send_each_consumers, send_each_futures by done.
  simpl. rewrite list_filter_filter.
  apply std_map_facts.filter_ext_in. intros p Hp.
  unfold accepts. destruct (send p.2 fr) as [|fut] eqn:Hs.
  { split; [by intros [_ ?]|done]. }
  split.
  - intros [Hnot _]. destruct fut as [[]|]; [done| |]; exfalso; apply Hnot.
    all: unfold failed_keys; apply list_elem_of_fmap.
    + exists (p.1, ready false). split; [done|].
      apply list_elem_of_filter. split; [done|].
      apply list_elem_of_omap. exists p. split; [done|]. unfold sent. by rewrite Hs.
    + exists (p.1, broken). split; [done|].
      apply list_elem_of_filter. split; [done|].
      apply list_elem_of_omap. exists p. split; [done|]. unfold sent. by rewrite Hs.
  - intros Hacc. split; [|done]. intros Hin.
    unfold failed_keys in Hin.
    apply list_elem_of_fmap in Hin as [q [Hq1 Hq]].
    apply list_elem_of_filter in Hq as [Hq2 Hq].
    apply list_elem_of_omap in Hq as [p' [Hp' Hsent]].
    unfold sent in Hsent. destruct (send p'.2 fr) as [|fut'] eqn:Hs'; [done|].
    injection Hsent as <-. simpl in *.
    assert (p' = p) as -> by (eapply std_map_facts.key_determines; eauto).
    rewrite Hs in Hs'. injection Hs' as <-.
    destruct fut as [[]|]; done.
Qed.

(** *** [collect_state] *)

Lemma port_key_inj i j : port_key i = port_key j → i = j.
Proof.
  unfold port_key. intros Heq. simpl in Heq.
  injection Heq as Heq. by apply (inj pretty).
Qed.

Lemma collect_from_other (st : gmap string monitor_state) cs i :
  i ∉ std_map.keys cs →
  foldl (λ st p, <[port_key p.1 := state p.2]> st) st cs !! port_key i
  = st !! port_key i.
Proof.
  revert st. induction cs as [|[j c] cs IH]; intros st Hnot; [done|].
  unfold std_map.keys in *. simpl in *.
  apply not_elem_of_cons in Hnot as [Hne Hnot].
  rewrite IH by done. apply lookup_insert_ne.
  intros Heq. by apply port_key_inj in Heq.
Qed.

Lemma collect_from_member (st : gmap string monitor_state) cs i c :
  std_map.wf cs → (i, c) ∈ cs →
  foldl (λ st p, <[port_key p.1 := state p.2]> st) st cs !! port_key i
  = Some (state c).
Proof.
  revert st. induction cs as [|[j d] cs IH]; intros st Hwf Hin.
  { by apply elem_of_nil in Hin. }
  pose proof (std_map_facts.wf_NoDup _ Hwf) as Hnd.
  apply std_map_facts.wf_cons_inv in Hwf as [Hwf _].
  unfold std_map.keys in Hnd. simpl in Hnd. apply NoDup_cons in Hnd as [Hj _].
  apply elem_of_cons in Hin as [Heq|Hin]; simpl.
  - injection Heq as -> ->. rewrite collect_from_other by done.
    apply lookup_insert_eq.
  - by apply IH.
Qed.

Lemma collect_from_lookup (st : gmap string monitor_state) cs k v :
  foldl (λ st p, <[port_key p.1 := state p.2]> st) st cs !! k = Some v →
  st !! k = Some v ∨ ∃ i c, (i, c) ∈ cs ∧ k = port_key i ∧ v = state c.
Proof.
  revert st. induction cs as [|[j d] cs IH]; intros st Hk; [by left|].
  simpl in Hk. apply IH in Hk as [Hk|(i & c & Hin & -> & ->)].
  - destruct (decide (port_key j = k)) as [<-|Hne].
    + rewrite lookup_insert_eq in Hk. injection Hk as <-.
      right. exists j, d. split; [left|done].
    + rewrite lookup_insert_ne in Hk by done. by left.
  - right. exists i, c. split; [by right|done].
Qed.

(** *** One tick, by cases *)

Lemma dispatch_delivery now self input_frame format_desc fr :
  delivery_tick self input_frame format_desc fr →
  let r1 := send_each fr (consumers_ self) [] in
  let r2 := await_each r1.1.2 r1.1.1 in
  dispatch now self input_frame format_desc
  = ({| state_ := collect_state r2.1;
        channel_index_ := channel_index_ self;
        format_desc_ := format_desc_ self;
        consumers_ := r2.1;
        time_ := if needs_sync r2.1
                 then Some (default now (time_ self) + period (format_desc_ self))
                 else time_ self |},
     [ev_lock; ev_copy (std_map.keys (consumers_ self)); ev_unlock]
     ++ r1.2 ++ r2.2
     ++ (if needs_sync r2.1 then [pacing_event (time_ self)] else [])).
Proof.
  intros (-> & Hsize & Hfmt). simpl. unfold dispatch.
  rewrite (proj2 (Z.eqb_eq _ _) Hsize), Hfmt. simpl.
  destruct (send_each fr (consumers_ self) []) as [[cs1 futs] evs1]. simpl.
  destruct (await_each futs cs1) as [cs2 evs2]. simpl.
  destruct (needs_sync cs2); [|done].
  by destruct (time_ self).
Qed.

Lemma dispatch_format_change now self input_frame format_desc fr :
  format_change_tick self input_frame format_desc fr →
  dispatch now self input_frame format_desc
  = ({| state_ := state_ self;
        channel_index_ := channel_index_ self;
        format_desc_ := format_desc;
        consumers_ := filter (λ p, initialize p.2 format_desc p.1 = true) (consumers_ self);
        time_ := None |},
     [ev_lock] ++ flat_map (initialize_events format_desc) (consumers_ self) ++ [ev_unlock]).
Proof.
  intros (-> & Hsize & Hfmt). unfold dispatch.
  rewrite (proj2 (Z.eqb_eq _ _) Hsize), Hfmt. simpl.
  rewrite <-initialize_each_consumers, <-initialize_each_events.
  by destruct (initialize_each format_desc (consumers_ self)).
Qed.

(** Projections of the traces of the loops. *)
Lemma sends_of_send_events fr cs :
  sends_of (flat_map (send_events fr) cs) = (λ p, (p.1, fr)) <$> cs.
Proof.
  induction cs as [|[i c] cs IH]; [done|].
  simpl. unfold sends_of in *. rewrite omap_app, IH.
  unfold send_events. simpl. by destruct (send c fr).
Qed.

Lemma send_events_no (f : event → bool) fr cs :
  (∀ i x, f (ev_send i x) = false) → f ev_log_exception = false →
  (∀ i, f (ev_erase i) = false) →
  Forall (λ e, f e = false) (flat_map (send_events fr) cs).
Proof.
  intros H1 H2 H3. induction cs as [|[i c] cs IH]; [constructor|].
  simpl. apply Forall_app. split; [|done].
  unfold send_events. destruct (send _ _); repeat constructor; auto.
Qed.

Lemma await_events_no (f : event → bool) futs :
  (∀ i, f (ev_get i) = false) → f ev_log_exception = false →
  (∀ i, f (ev_erase i) = false) →
  Forall (λ e, f e = false) (flat_map await_events futs).
Proof.
  intros H1 H2 H3. induction futs as [|[i fut] futs IH]; [constructor|].
  simpl. apply Forall_app. split; [|done].
  unfold await_events. simpl. destruct fut as [[]|]; repeat constructor; auto.
Qed.

Lemma initializations_of_initialize_events format_desc cs :
  initializations_of (flat_map (initialize_events format_desc) cs)
  = (λ p, (p.1, format_desc, p.1)) <$> cs.
Proof.
  induction cs as [|[i c] cs IH]; [done|].
  simpl. unfold initializations_of in *. rewrite omap_app, IH.
  unfold initialize_events. simpl. by destruct (initialize c format_desc i).
Qed.

Lemma initialize_events_no_send format_desc cs :
  Forall (λ e, is_send e = false) (flat_map (initialize_events format_desc) cs).
Proof.
  induction cs as [|[i c] cs IH]; [constructor|].
  simpl. apply Forall_app. split; [|done].
  unfold initialize_events. destruct (initialize _ _ _); repeat constructor.
Qed.

End output_facts.
End output_facts.

Module output_spec.
Import output output_facts.

Section general.
Context `{!externals}.

Lemma wf_filter (P : Z * frame_consumer → Prop) `{!∀ p, Decision (P p)} cs :
  std_map.wf cs → std_map.wf (filter P cs).
Proof.
  induction cs as [|[i c] cs IH]; intros Hwf; [done|].
  apply std_map_facts.wf_cons_inv in Hwf as [Hwf Habove].
  rewrite filter_cons. case_decide; [|by apply IH].
  unfold std_map.wf, std_map.keys in *. simpl. constructor; [by apply IH|].
  rewrite Forall_fmap. rewrite Forall_forall in Habove. apply Forall_forall.
  intros p Hp. apply list_elem_of_filter in Hp as [_ Hp]. by apply Habove.
Qed.

(** The pacing step of a delivery tick, in both cases. *)
Lemma dispatch_pacing now self input_frame format_desc fr :
  delivery_tick self input_frame format_desc fr →
  let r := dispatch now self input_frame format_desc in
  if needs_sync (consumers_ r.1)
  then time_ r.1 = Some (default now (time_ self) + period (format_desc_ self))
       ∧ last r.2 = Some (pacing_event (time_ self))
  else time_ r.1 = time_ self
       ∧ Forall (λ e, is_wait e = false) r.2.
Proof.
  intros Htick. simpl. rewrite (dispatch_delivery _ _ _ _ _ Htick).
  cbn [fst snd consumers_ time_].
  destruct (needs_sync _); split; try done.
  - rewrite !app_assoc. apply last_snoc.
  - rewrite send_each_events, await_each_events, app_nil_r.
    repeat (apply Forall_cons; split; [done|]).
    apply Forall_app. split.
    + by apply send_events_no.
    + by apply await_events_no.
Qed.

(** C3 (amended). On a delivery tick the registry is copied between
    taking and releasing the lock; after that, with the lock released,
    [send] is called once for every registered consumer in key order (a
    consumer whose [send] throws is logged and erased at once), and only
    then the futures are waited for, in key order, each consumer being
    erased as soon as its own future gives [false] or an error. No [send]
    follows the first wait and the lock is not taken again. *)
Theorem dispatch_sends_then_awaits now self input_frame format_desc fr :
  delivery_tick self input_frame format_desc fr →
  std_map.wf (consumers_ self) →
  ∃ sends awaits pacing,
    (dispatch now self input_frame format_desc).2
    = [ev_lock; ev_copy (std_map.keys (consumers_ self)); ev_unlock]
      ++ sends ++ awaits ++ pacing
    ∧ sends = flat_map (send_events fr) (consumers_ self)
    ∧ awaits = flat_map await_events (omap (sent fr) (consumers_ self))
    ∧ sends_of sends = (λ p, (p.1, fr)) <$> consumers_ self
    ∧ Forall (λ e, is_lock e = false) (sends ++ awaits ++ pacing)
    ∧ Forall (λ e, is_get e = false) sends
    ∧ Forall (λ e, is_send e = false) (awaits ++ pacing).
Proof.
  intros Htick Hwf. rewrite (dispatch_delivery _ _ _ _ _ Htick). simpl.
  rewrite send_each_events, await_each_events, send_each_futures by done.
  simpl. eexists _, _, _. split; [reflexivity|].
  split; [done|]. split; [done|].
  split; [apply sends_of_send_events|].
  assert (∀ (f : event → bool) (b : bool),
          f ev_now = false → (∀ t, f (ev_sleep_until t) = false) →
          Forall (λ e, f e = false)
            (if b then [pacing_event (time_ self)] else [])) as Hpace.
  { intros f b H1 H2. destruct b; [|constructor].
    apply Forall_singleton. destruct (time_ self); simpl; auto. }
  split; [|split].
  - apply Forall_app. split; [by apply send_events_no|].
    apply Forall_app. split; [by apply await_events_no|by apply Hpace].
  - by apply send_events_no.
  - apply Forall_app. split; [by apply await_events_no|by apply Hpace].
Qed.

(** C4. After a delivery tick the registry holds exactly the consumers
    whose [send] returned a future that resolved to [true]: a consumer
    whose [send] threw, whose future gave [false] or whose future gave
    the error of the send is gone, every other one is still there. The
    state is exactly the map from "port/<index>" to [state()] of those
    that are left. *)
Theorem dispatch_evicts_failed now self input_frame format_desc fr :
  delivery_tick self input_frame format_desc fr →
  std_map.wf (consumers_ self) →
  let self' := (dispatch now self input_frame format_desc).1 in
  consumers_ self' = filter (λ p, accepts fr p.2 = true) (consumers_ self)
  ∧ (∀ i c, (i, c) ∈ consumers_ self' →
            state_ self' !! ("port/" +:+ pretty i) = Some (state c))
  ∧ (∀ k v, state_ self' !! k = Some v →
            ∃ i c, (i, c) ∈ consumers_ self' ∧ k = "port/" +:+ pretty i ∧ v = state c).
Proof.
  intros Htick Hwf. simpl. rewrite (dispatch_delivery _ _ _ _ _ Htick). simpl.
  rewrite survivors by done.
  split; [done|]. split.
  - intros i c Hin. apply collect_from_member; [by apply wf_filter|done].
  - intros k v Hk. apply collect_from_lookup in Hk as [Hk|Hk]; [|done].
    by rewrite lookup_empty in Hk.
Qed.

(** C6 (amended). When [dispatch] is called with a frame that is there
    and has the size of the current format, and with a format different
    from the current one, it calls [initialize(new format, index)] on
    every registered consumer under the lock, sends nothing, erases (and
    logs) every consumer whose [initialize] throws, makes the new format
    the current one and unsets the deadline. *)
Theorem dispatch_format_change_reconfigures now self input_frame format_desc fr :
  format_change_tick self input_frame format_desc fr →
  reconfigured self format_desc (dispatch now self input_frame format_desc).
Proof.
  intros Htick. rewrite (dispatch_format_change _ _ _ _ _ Htick).
  unfold reconfigured. simpl. split; [done|]. split.
  - change (ev_lock :: ?l) with ([ev_lock] ++ l).
    unfold initializations_of. rewrite !omap_app. simpl. rewrite app_nil_r.
    apply initializations_of_initialize_events.
  - split; [|done]. constructor; [done|]. apply Forall_app.
    split; [apply initialize_events_no_send|by repeat constructor].
Qed.

(** C7. A missing frame, or one whose size is not the size of the
    current format, reaches no [send] and leaves the dispatcher as it
    was: registry, format, deadline and state. A missing frame does
    nothing at all; a wrong size logs one warning. *)
Theorem dispatch_drops_invalid_frame now self input_frame format_desc :
  input_frame = None
  ∨ (∃ fr, input_frame = Some fr ∧ frame_size fr ≠ desc_size (format_desc_ self)) →
  let r := dispatch now self input_frame format_desc in
  r.1 = self
  ∧ Forall (λ e, is_send e = false) r.2
  ∧ r.2 = match input_frame with
          | None => []
          | Some _ => [ev_log_warning (print self +:+ " Invalid input frame size.")]
          end.
Proof.
  intros [->|(fr & -> & Hsize)]; simpl; [by repeat split|].
  apply Z.eqb_neq in Hsize. rewrite Hsize. simpl.
  repeat split. by repeat constructor.
Qed.

(** C10. With an empty registry at the pacing step the dispatcher paces
    itself: the deadline becomes the previous deadline (the current time
    if there was none) plus the period, and the tick ends by reading the
    clock or by sleeping until the previous deadline. A dispatcher with
    the same deadline and format whose remaining consumers all lack a
    synchronization clock ends its tick with the same deadline and the
    same event. *)
Theorem dispatch_paces_empty_registry now self input_frame format_desc fr
    other input_frame' format_desc' fr' :
  delivery_tick self input_frame format_desc fr →
  consumers_ (dispatch now self input_frame format_desc).1 = [] →
  delivery_tick other input_frame' format_desc' fr' →
  needs_sync (consumers_ (dispatch now other input_frame' format_desc').1) = true →
  time_ other = time_ self →
  format_desc_ other = format_desc_ self →
  let r := dispatch now self input_frame format_desc in
  let r' := dispatch now other input_frame' format_desc' in
  time_ r.1 = Some (default now (time_ self) + period (format_desc_ self))
  ∧ last r.2 = Some (pacing_event (time_ self))
  ∧ time_ r'.1 = time_ r.1
  ∧ last r'.2 = last r.2.
Proof.
  intros Htick Hempty Htick' Hsync Htime Hfmt. simpl.
  pose proof (dispatch_pacing now _ _ _ _ Htick) as Hp.
  pose proof (dispatch_pacing now _ _ _ _ Htick') as Hp'.
  simpl in Hp, Hp'. rewrite Hempty in Hp. rewrite Hsync in Hp'. simpl in Hp.
  destruct Hp as [-> ->], Hp' as [-> ->]. by rewrite Htime, Hfmt.
Qed.

End general.

Section sample.
Import output_sample.
#[local] Existing Instance ext.

Lemma dispatch_sends_then_awaits_witness :
  let self := make [(1, refusing 1); (2, accepting 2)] None in
  delivery_tick self (Some pal_frame) pal pal_frame
  ∧ std_map.wf (consumers_ self)
  ∧ ∃ sends awaits pacing,
      (dispatch 0 self (Some pal_frame) pal).2
      = [ev_lock; ev_copy (std_map.keys (consumers_ self)); ev_unlock]
        ++ sends ++ awaits ++ pacing
      ∧ sends = flat_map (send_events pal_frame) (consumers_ self)
      ∧ awaits = flat_map await_events (omap (sent pal_frame) (consumers_ self))
      ∧ sends_of sends = (λ p, (p.1, pal_frame)) <$> consumers_ self
      ∧ Forall (λ e, is_lock e = false) (sends ++ awaits ++ pacing)
      ∧ Forall (λ e, is_get e = false) sends
      ∧ Forall (λ e, is_send e = false) (awaits ++ pacing).
Proof.
  assert (std_map.wf [(1, refusing 1); (2, accepting 2)]) as Hwf
    by (repeat constructor).
  split; [by repeat split|]. split; [exact Hwf|].
  apply dispatch_sends_then_awaits; [by repeat split|exact Hwf].
Defined.

(** C3, as stated, fails: a consumer whose [send] throws is erased before
    the next [send] is issued, and a consumer whose future gives [false]
    is erased before the next future is waited for. *)
Lemma dispatch_erases_between_awaits :
  let self := make [(1, throwing 1); (2, refusing 2); (3, accepting 3)] None in
  let tr := (dispatch 0 self (Some pal_frame) pal).2 in
  delivery_tick self (Some pal_frame) pal pal_frame
  ∧ tr = [ev_lock; ev_copy [1; 2; 3]; ev_unlock;
          ev_send 1 pal_frame; ev_log_exception; ev_erase 1;
          ev_send 2 pal_frame; ev_send 3 pal_frame;
          ev_get 2; ev_erase 2; ev_get 3; ev_now]
  ∧ ¬ awaits_before_evictions tr.
Proof.
  split; [by repeat split|]. split; [reflexivity|].
  intros Hclaim.
  specialize (Hclaim [ev_lock; ev_copy [1; 2; 3]; ev_unlock;
                      ev_send 1 pal_frame; ev_log_exception]
                     [ev_send 2 pal_frame; ev_send 3 pal_frame;
                      ev_get 2; ev_erase 2; ev_get 3; ev_now] 1 eq_refl).
  rewrite Forall_forall in Hclaim.
  specialize (Hclaim (ev_get 2)). discriminate Hclaim.
  by repeat constructor.
Qed.

Lemma dispatch_evicts_failed_witness :
  let self := make [(1, refusing 1); (2, accepting 2); (3, throwing 3)] None in
  let self' := (dispatch 0 self (Some pal_frame) pal).1 in
  delivery_tick self (Some pal_frame) pal pal_frame
  ∧ std_map.wf (consumers_ self)
  ∧ consumers_ self' = filter (λ p, accepts pal_frame p.2 = true) (consumers_ self)
  ∧ (∀ i c, (i, c) ∈ consumers_ self' →
            state_ self' !! ("port/" +:+ pretty i) = Some (state c))
  ∧ (∀ k v, state_ self' !! k = Some v →
            ∃ i c, (i, c) ∈ consumers_ self' ∧ k = "port/" +:+ pretty i ∧ v = state c).
Proof.
  assert (std_map.wf [(1, refusing 1); (2, accepting 2); (3, throwing 3)]) as Hwf
    by (repeat constructor).
  split; [by repeat split|]. split; [exact Hwf|].
  apply (dispatch_evicts_failed 0 (make [(1, refusing 1); (2, accepting 2); (3, throwing 3)] None)
           (Some pal_frame) pal pal_frame); [by repeat split|exact Hwf].
Defined.

(** The instance of C4 the specification names: of three consumers one
    refuses and one throws; one is left, and the state has its entry
    only. *)
Example dispatch_three_consumers :
  let self := make [(1, refusing 1); (2, accepting 2); (3, throwing 3)] None in
  let self' := (dispatch 0 self (Some pal_frame) pal).1 in
  consumers_ self' = [(2, accepting 2)]
  ∧ state_ self' = {[ "port/2" := "consumer 2" ]}.
Proof. split; reflexivity. Qed.

(** C5: the part on consumers with a synchronization clock fails on the
    code. A tick without consumers sets the deadline; a consumer with a
    clock is added; the next tick does not wait and leaves the deadline
    of the first tick in place. *)
Theorem dispatch_clocked_keeps_deadline :
  let s1 := (dispatch 1000 (make [] None) (Some pal_frame) pal).1 in
  let s2 := (add 1 (clocked 1) s1).1.1 in
  let r := dispatch 2000 s2 (Some pal_frame) pal in
  time_ s1 = Some 41000
  ∧ consumers_ r.1 = [(1, clocked 1)]
  ∧ needs_sync (consumers_ r.1) = false
  ∧ Forall (λ e, is_wait e = false) r.2
  ∧ time_ r.1 = Some 41000.
Proof. repeat split; try reflexivity. by repeat constructor. Qed.

Lemma dispatch_format_change_reconfigures_witness :
  let self := make [(1, accepting 1); (2, stubborn 2)] (Some 5000) in
  format_change_tick self (Some pal_frame) x720p5000 pal_frame
  ∧ reconfigured self x720p5000 (dispatch 0 self (Some pal_frame) x720p5000).
Proof.
  split; [by repeat split|].
  apply (dispatch_format_change_reconfigures 0 _ _ _ pal_frame). by repeat split.
Defined.

(** C6, as stated, fails: called with another format and a frame of the
    size of that format, [dispatch] drops the frame at the size check;
    no consumer is initialized and the format stays. *)
Lemma dispatch_new_format_frame_dropped :
  let self := make [(1, accepting 1)] (Some 5000) in
  let r := dispatch 0 self (Some hd_frame) x720p5000 in
  format_desc_neq (format_desc_ self) x720p5000 = true
  ∧ frame_size hd_frame = desc_size x720p5000
  ∧ initializations_of r.2 = []
  ∧ format_desc_ r.1 = pal
  ∧ time_ r.1 = Some 5000
  ∧ ¬ reconfigured self x720p5000 r.
Proof.
  repeat split; try reflexivity.
  intros (_ & _ & _ & _ & Hfmt & _). discriminate Hfmt.
Qed.

Lemma dispatch_drops_invalid_frame_witness :
  let self := make [(1, accepting 1)] (Some 5000) in
  let r := dispatch 0 self (Some hd_frame) pal in
  (Some hd_frame = None
   ∨ ∃ fr, Some hd_frame = Some fr ∧ frame_size fr ≠ desc_size (format_desc_ self))
  ∧ r.1 = self
  ∧ Forall (λ e, is_send e = false) r.2
  ∧ r.2 = [ev_log_warning (print self +:+ " Invalid input frame size.")].
Proof.
  assert (Some hd_frame = None
          ∨ ∃ fr, Some hd_frame = Some fr
                  ∧ frame_size fr ≠ desc_size (format_desc_ (make [(1, accepting 1)] (Some 5000))))
    as Hbad by (right; exists hd_frame; split; [reflexivity|discriminate]).
  split; [exact Hbad|].
  exact (dispatch_drops_invalid_frame 0 (make [(1, accepting 1)] (Some 5000))
           (Some hd_frame) pal Hbad).
Defined.

Lemma dispatch_paces_empty_registry_witness :
  let self := make [] (Some 5000) in
  let other := make [(1, accepting 1)] (Some 5000) in
  let r := dispatch 7000 self (Some pal_frame) pal in
  let r' := dispatch 7000 other (Some pal_frame) pal in
  consumers_ r.1 = []
  ∧ time_ r.1 = Some (default 7000 (time_ self) + period (format_desc_ self))
  ∧ last r.2 = Some (pacing_event (time_ self))
  ∧ time_ r'.1 = time_ r.1
  ∧ last r'.2 = last r.2.
Proof.
  split; [reflexivity|].
  apply (dispatch_paces_empty_registry 7000 (make [] (Some 5000)) (Some pal_frame) pal pal_frame
           (make [(1, accepting 1)] (Some 5000)) (Some pal_frame) pal pal_frame);
    first [by repeat split | reflexivity].
Defined.

End sample.
End output_spec.

(** ** The decode worker *)

Module video_decoder_facts.
Import video_decoder.
Section video_decoder_facts.
Context `{!externals}.

(** *** What one pass emits *)

Lemma flush_delayed_frames fuel self ticket :
  Forall (λ e, ∃ p, e = (frame_element p, ticket)) (flush_delayed fuel self ticket).1.2.
Proof.
  revert self. induction fuel as [|fuel IH]; intros self; simpl; [constructor|].
  destruct (decode self flush_pkt) as [self1 [| |a]]; simpl; try constructor.
  destruct (dup_frame (heap self1) a) as [[m p]|]; simpl; [|constructor].
  specialize (IH (set_heap self1 m)).
  destruct (flush_delayed fuel (set_heap self1 m) ticket) as [[self2 out] c].
  simpl in *. constructor; [by exists p|done].
Qed.

Lemma handle_elements fuel self element :
  Forall (λ e, (∃ p, e = (frame_element p, element.2)) ∨ e = (loop_video, ticket_default))
    (handle fuel self element).1.2.
Proof.
  unfold handle. destruct (decide (element.1 = loop_packet (index_ self))).
  - assert (∀ r : implementation * list target_element_t * control,
              Forall (λ e, ∃ p, e = (frame_element p, element.2)) r.1.2 →
              Forall (λ e, (∃ p, e = (frame_element p, element.2))
                           ∨ e = (loop_video, ticket_default))
                (let '(self1, out, c) := r in
                 match c with
                 | next => (set_codec self1 (avcodec_flush_buffers (codec_context_ self1)),
                            out ++ [(loop_video, ticket_default)], next)
                 | _ => (self1, out, c)
                 end).1.2) as Hcase.
    { intros [[self1 out] c] Hout. simpl in Hout.
      assert (Forall (λ e, (∃ p, e = (frame_element p, element.2))
                           ∨ e = (loop_video, ticket_default)) out) as Hout'
        by (eapply Forall_impl; [exact Hout|]; intros; by left).
      destruct c; simpl; try done.
      apply Forall_app. split; [done|]. apply Forall_singleton. by right. }
    case_decide.
    + apply Hcase. apply flush_delayed_frames.
    + apply (Hcase (self, [], next)). constructor.
  - destruct (decide (element.1 = eof_packet (index_ self))); [constructor|].
    destruct (decode self (deref element.1)) as [self1 [| |a]]; simpl; try constructor.
    destruct (dup_frame _ a) as [[m p]|]; simpl; [|constructor].
    apply Forall_singleton. left. by exists p.
Qed.

Lemma receive_loop_elements fuel self source :
  Forall (λ e, e.1 ≠ eof_video) (receive_loop fuel self source).1.2.
Proof.
  revert self. induction source as [|element rest IH]; intros self; simpl; [constructor|].
  pose proof (handle_elements fuel self element) as Hh.
  destruct (handle fuel self element) as [[self1 out] c]. simpl in Hh.
  assert (Forall (λ e : target_element_t, e.1 ≠ eof_video) out) as Hout.
  { eapply Forall_impl; [exact Hh|]. by intros e [[p ->]| ->]. }
  specialize (IH self1).
  destruct c; simpl; try done.
  destruct (receive_loop fuel self1 rest) as [[self2 out2] c2]. simpl in *.
  by apply Forall_app.
Qed.

(** Once the loop is left, nothing offered later is looked at. *)
Lemma receive_loop_app fuel self source more :
  (receive_loop fuel self source).2 ≠ next →
  receive_loop fuel self (source ++ more) = receive_loop fuel self source.
Proof.
  revert self. induction source as [|element rest IH]; intros self Hc; simpl in *; [done|].
  destruct (handle fuel self element) as [[self1 out] c].
  destruct c; try done.
  specialize (IH self1).
  destruct (receive_loop fuel self1 rest) as [[self2 out2] c2]. simpl in *.
  by rewrite IH.
Qed.

(** *** [index_] never changes *)

Lemma decode_index self pkt : index_ (decode self pkt).1 = index_ self.
Proof.
  unfold decode. destruct (avcodec_decode_video2 _ _) as [c r].
  repeat case_match; done.
Qed.

Lemma flush_delayed_index fuel self ticket :
  index_ (flush_delayed fuel self ticket).1.1 = index_ self.
Proof.
  revert self. induction fuel as [|fuel IH]; intros self; simpl; [done|].
  pose proof (decode_index self flush_pkt) as Hd.
  destruct (decode self flush_pkt) as [self1 [| |a]]; simpl in *; try done.
  destruct (dup_frame (heap self1) a) as [[m p]|]; simpl; [|done].
  specialize (IH (set_heap self1 m)).
  destruct (flush_delayed fuel (set_heap self1 m) ticket) as [[self2 out] c].
  simpl in *. congruence.
Qed.

Lemma handle_index fuel self element :
  index_ (handle fuel self element).1.1 = index_ self.
Proof.
  unfold handle. destruct (decide (element.1 = loop_packet (index_ self))).
  - case_decide.
    + pose proof (flush_delayed_index fuel self element.2) as Hf.
      destruct (flush_delayed fuel self element.2) as [[self1 out] c].
      simpl in Hf. by destruct c.
    + done.
  - destruct (decide (element.1 = eof_packet (index_ self))); [done|].
    pose proof (decode_index self (deref element.1)) as Hd.
    destruct (decode self (deref element.1)) as [self1 [| |a]]; simpl in *; try done.
    by destruct (dup_frame _ a) as [[m p]|].
Qed.

Lemma handle_break fuel self element :
  (handle fuel self element).2 = break → element.1 = eof_packet (index_ self).
Proof.
  unfold handle. destruct (decide (element.1 = loop_packet (index_ self))).
  - case_decide; [|done].
    assert (∀ ticket, (flush_delayed fuel self ticket).2 ≠ break) as Hnb.
    { clear. intros ticket. revert self.
      induction fuel as [|fuel IH]; intros self; simpl; [done|].
      destruct (decode self flush_pkt) as [self1 [| |a]]; simpl; try done.
      destruct (dup_frame (heap self1) a) as [[m p]|]; simpl; [|done].
      specialize (IH (set_heap self1 m)).
      by destruct (flush_delayed fuel (set_heap self1 m) ticket) as [[self2 out] c]. }
    specialize (Hnb element.2).
    destruct (flush_delayed fuel self element.2) as [[self1 out] c].
    simpl in Hnb. by destruct c.
  - destruct (decide (element.1 = eof_packet (index_ self))); [done|].
    destruct (decode self (deref element.1)) as [self1 [| |a]]; simpl; try done.
    by destruct (dup_frame _ a) as [[m p]|].
Qed.

Lemma receive_loop_break fuel self source :
  (receive_loop fuel self source).2 = break →
  ∃ ticket, (eof_packet (index_ self), ticket) ∈ source.
Proof.
  revert self. induction source as [|element rest IH]; intros self Hc; simpl in *; [done|].
  pose proof (handle_break fuel self element) as Hb.
  pose proof (handle_index fuel self element) as Hi.
  destruct (handle fuel self element) as [[self1 out] c]. simpl in *.
  destruct c; simpl in *; try done.
  - specialize (IH self1).
    destruct (receive_loop fuel self1 rest) as [[self2 out2] c2]. simpl in *.
    destruct (IH Hc) as [ticket Hin]. exists ticket. right. by rewrite <-Hi.
  - exists element.2. destruct element as [pk t]. simpl in *. rewrite <-Hb by done. left.
Qed.

(** *** Fuel: once the flush loops end within the fuel, more fuel changes
    nothing *)

Lemma flush_delayed_more_fuel fuel k self ticket :
  (flush_delayed fuel self ticket).2 ≠ exhausted →
  flush_delayed (fuel + k) self ticket = flush_delayed fuel self ticket.
Proof.
  revert self. induction fuel as [|fuel IH]; intros self; simpl; [done|].
  destruct (decode self flush_pkt) as [self1 [| |a]]; simpl; try done.
  destruct (dup_frame (heap self1) a) as [[m p]|]; simpl; [|done].
  specialize (IH (set_heap self1 m)).
  destruct (flush_delayed fuel (set_heap self1 m) ticket) as [[self2 out] c].
  simpl in *. intros Hc. by rewrite IH.
Qed.

Lemma handle_more_fuel fuel k self element :
  (handle fuel self element).2 ≠ exhausted →
  handle (fuel + k) self element = handle fuel self element.
Proof.
  unfold handle. destruct (decide (element.1 = loop_packet (index_ self))); [|done].
  case_decide; [|done].
  pose proof (flush_delayed_more_fuel fuel k self element.2) as Hmore.
  destruct (flush_delayed fuel self element.2) as [[self1 out] c]. simpl in *.
  intros Hc. rewrite Hmore; [done|]. by destruct c.
Qed.

Lemma receive_loop_more_fuel fuel k self source :
  (receive_loop fuel self source).2 ≠ exhausted →
  receive_loop (fuel + k) self source = receive_loop fuel self source.
Proof.
  revert self. induction source as [|element rest IH]; intros self; simpl; [done|].
  pose proof (handle_more_fuel fuel k self element) as Hmore.
  destruct (handle fuel self element) as [[self1 out] c]. simpl in *.
  specialize (IH self1). intros Hc.
  rewrite Hmore by (by destruct c; [destruct (receive_loop fuel self1 rest) as [[? ?] ?]|..]).
  destruct c; try done.
  destruct (receive_loop fuel self1 rest) as [[self2 out2] c2]. simpl in *.
  by rewrite IH.
Qed.

Lemma run_more_fuel fuel k self source :
  (run fuel self source).2 ≠ diverged →
  run (fuel + k) self source = run fuel self source.
Proof.
  unfold run.
  pose proof (receive_loop_more_fuel fuel k self
                (filter (λ e, source_ self e = true) source)) as Hmore.
  destruct (receive_loop fuel self _) as [[self1 out] c]. simpl in *.
  intros Hc. rewrite Hmore; [done|]. by destruct c.
Qed.

(** An eof packet ends a worker that got there. *)
Lemma run_reaches_eof fuel self source ticket rest :
  Forall (λ e, source_ self e = true) source →
  (receive_loop fuel self source).2 = next →
  run fuel self (source ++ (eof_packet (index_ self), ticket) :: rest)
  = ((receive_loop fuel self source).1.1,
     (receive_loop fuel self source).1.2 ++ [(eof_video, ticket_default)],
     terminated).
Proof.
  intros Hmine Hnext. unfold run.
  assert (filter (λ e, source_ self e = true)
            (source ++ (eof_packet (index_ self), ticket) :: rest)
          = source ++ (eof_packet (index_ self), ticket)
              :: filter (λ e, source_ self e = true) rest) as ->.
  { rewrite filter_app, filter_cons_True.
    - f_equal. clear Hnext. induction Hmine as [|e l He _ IH]; [done|].
      by rewrite filter_cons_True, IH.
    - unfold source_. simpl. by apply bool_decide_eq_true. }
  assert (∀ s l, index_ s = index_ self → (receive_loop fuel s l).2 = next →
            receive_loop fuel s (l ++ (eof_packet (index_ self), ticket)
                                   :: filter (λ e, source_ self e = true) rest)
            = ((receive_loop fuel s l).1.1, (receive_loop fuel s l).1.2, break)) as Hgo.
  { clear. intros s l. revert s. induction l as [|element l IH]; intros s Hidx; simpl.
    - intros _. unfold handle. simpl. rewrite Hidx.
      repeat case_decide; done.
    - pose proof (handle_index fuel s element) as Hi.
      destruct (handle fuel s element) as [[s1 out] c]. simpl in *.
      destruct c; try done.
      specialize (IH s1).
      destruct (receive_loop fuel s1 l) as [[s2 out2] c2]. simpl in *.
      intros ->. rewrite IH by congruence. done. }
  by rewrite Hgo.
Qed.

End video_decoder_facts.
End video_decoder_facts.

Module video_decoder_spec.
Import video_decoder video_decoder_facts.

Section general.
Context `{!externals}.

(** The function with fuel follows the flush decodes as they happen. *)
Lemma flush_delayed_flushes fuel self ticket ps c self' :
  flushes self ps c self' → (length ps < fuel)%nat →
  flush_delayed fuel self ticket = (self', (λ p, (frame_element p, ticket)) <$> ps, c).
Proof.
  intros Hfl. revert fuel.
  induction Hfl as [self self1 Hd|self self1 Hd|self self1 a m p ps c self2 Hd Hdup _ IH];
    intros fuel Hfuel; (destruct fuel as [|fuel]; [simpl in Hfuel; lia|]);
    simpl; rewrite Hd; [done|done|].
  rewrite Hdup, IH by (simpl in Hfuel; lia). done.
Qed.

(** C1. When [run] is over, whether the loop was left at an eof packet
    or through the handler of [catch], the output is a sequence without
    [eof_video] followed by exactly one [eof_video]; and whatever is
    offered to the worker after that changes nothing: no retry, no
    further marker. *)
Theorem run_ends_with_one_eof fuel self source :
  let r := run fuel self source in
  r.2 = terminated →
  (∃ pre, r.1.2 = pre ++ [(eof_video, ticket_default)]
          ∧ Forall (λ e, e.1 ≠ eof_video) pre)
  ∧ ((∃ ticket, (eof_packet (index_ self), ticket) ∈ source)
     ∨ last (log r.1.1) = Some log_exception)
  ∧ ∀ more, run fuel self (source ++ more) = r.
Proof.
  unfold run. simpl.
  pose proof (receive_loop_elements fuel self
                (filter (λ e, source_ self e = true) source)) as Hout.
  pose proof (receive_loop_break fuel self
                (filter (λ e, source_ self e = true) source)) as Hbreak.
  pose proof (λ more, receive_loop_app fuel self
                (filter (λ e, source_ self e = true) source)
                (filter (λ e, source_ self e = true) more)) as Happ.
  destruct (receive_loop fuel self _) as [[self1 out] c] eqn:Hloop.
  simpl in *. destruct c; simpl; intros Hend; try done.
  - split; [by exists out|]. split.
    + left. destruct (Hbreak eq_refl) as [ticket Hin].
      exists ticket. by apply list_elem_of_filter in Hin as [_ Hin].
    + intros more. by rewrite filter_app, Happ.
  - split; [by exists out|]. split.
    + right. apply last_snoc.
    + intros more. by rewrite filter_app, Happ.
Qed.

(** C2 (amended). A loop packet for this worker, when the codec reports
    delay: the frames the zero-length decodes hand out are emitted,
    duplicated, in order and with nothing in between. If the decodes end
    with "no frame", the codec is flushed, one [loop_video] follows, and
    the loop goes on with the next element. If one of them fails, the
    pass ends in the handler of [catch] instead, with the codec not
    flushed and no [loop_video]. Without delay there is no decode: flush,
    one [loop_video], go on. An eof packet leaves the loop without any
    decode or flush. *)
Theorem handle_loop_packet fuel self ticket ps c self' :
  (has_delay self ∧ flushes self ps c self')
  ∨ (¬ has_delay self ∧ ps = [] ∧ c = next ∧ self' = self) →
  (length ps < fuel)%nat →
  let frames_out := (λ p, (frame_element p, ticket)) <$> ps in
  let flushed := set_codec self' (avcodec_flush_buffers (codec_context_ self')) in
  handle fuel self (loop_packet (index_ self), ticket)
  = match c with
    | next => (flushed, frames_out ++ [(loop_video, ticket_default)], next)
    | _ => (self', frames_out, c)
    end
  ∧ (c = next → ∀ rest,
       receive_loop fuel self ((loop_packet (index_ self), ticket) :: rest)
       = let r := receive_loop fuel flushed rest in
         (r.1.1, (frames_out ++ [(loop_video, ticket_default)]) ++ r.1.2, r.2))
  ∧ handle fuel self (eof_packet (index_ self), ticket) = (self, [], break).
Proof.
  intros Hcase Hfuel. simpl.
  assert (handle fuel self (loop_packet (index_ self), ticket)
          = match c with
            | next => (set_codec self' (avcodec_flush_buffers (codec_context_ self')),
                       ((λ p, (frame_element p, ticket)) <$> ps)
                       ++ [(loop_video, ticket_default)], next)
            | _ => (self', (λ p, (frame_element p, ticket)) <$> ps, c)
            end) as Hhandle.
  { unfold handle. simpl. destruct (decide _) as [_|]; [|done].
    destruct Hcase as [[Hdelay Hfl]|(Hno & -> & -> & ->)].
    - unfold has_delay in Hdelay. case_decide; [|done].
      by rewrite (flush_delayed_flushes _ _ _ _ _ _ Hfl Hfuel).
    - unfold has_delay in Hno. by case_decide. }
  split; [exact Hhandle|]. split.
  - intros -> rest. simpl. rewrite Hhandle.
    by destruct (receive_loop fuel _ rest) as [[self2 out2] c2].
  - unfold handle. simpl. repeat case_decide; done.
Qed.

(** C8 (amended). Of the elements one pass emits for a received element,
    every frame carries the ticket of that element, also the frames
    flushed for a loop packet; [loop_video] carries a default-constructed
    ticket, and a pass emits no [eof_video]. *)
Theorem handle_frames_carry_ticket fuel self element :
  Forall (λ e, match e.1 with
               | frame_element _ => e.2 = element.2
               | loop_video => e.2 = ticket_default
               | eof_video => False
               end) (handle fuel self element).1.2.
Proof.
  eapply Forall_impl; [apply handle_elements|].
  by intros e [[p ->]| ->].
Qed.

End general.

Section sample.
Import video_decoder_sample.
#[local] Existing Instance ext.

Lemma run_ends_with_one_eof_witness :
  let at_eof := run 5 (worker [got yuv_picture] 0)
                  [(pkt [1], Some 1%nat); (eof_packet 0, Some 2%nat)] in
  let at_failure := run 5 (worker [got yuv_picture; failure] 0)
                      [(pkt [1], Some 1%nat); (pkt [2], Some 2%nat)] in
  (at_eof.2 = terminated ∧ at_failure.2 = terminated)
  ∧ (∃ pre, at_eof.1.2 = pre ++ [(eof_video, ticket_default)]
            ∧ Forall (λ e, e.1 ≠ eof_video) pre)
  ∧ (∃ pre, at_failure.1.2 = pre ++ [(eof_video, ticket_default)]
            ∧ Forall (λ e, e.1 ≠ eof_video) pre)
  ∧ last (log at_failure.1.1) = Some log_exception.
Proof.
  split; [split; reflexivity|].
  destruct (run_ends_with_one_eof 5 (worker [got yuv_picture] 0)
              [(pkt [1], Some 1%nat); (eof_packet 0, Some 2%nat)] eq_refl)
    as (Hpre & _ & _).
  destruct (run_ends_with_one_eof 5 (worker [got yuv_picture; failure] 0)
              [(pkt [1], Some 1%nat); (pkt [2], Some 2%nat)] eq_refl)
    as (Hpre' & _ & _).
  split; [exact Hpre|]. split; [exact Hpre'|]. reflexivity.
Defined.

(** C8, as stated, fails: the frame flushed for a loop packet with
    ticket 7 carries 7, the [loop_video] after it does not. *)
Lemma handle_loop_video_without_ticket :
  let out := (handle 5 (worker [got yuv_picture; nothing] 32) (loop_packet 0, Some 7%nat)).1.2 in
  out.*2 = [Some 7%nat; None]
  ∧ out !! 1%nat = Some (loop_video, None)
  ∧ ¬ carries_ticket (Some 7%nat) out.
Proof.
  split; [reflexivity|]. split; [reflexivity|].
  intros Hall. apply Forall_cons in Hall as [_ Hall].
  apply Forall_cons in Hall as [Hloop _]. discriminate Hloop.
Qed.

Lemma handle_loop_packet_witness :
  let self := worker [got yuv_picture; nothing; got yuv_picture] 32 in
  ∃ ps self',
    ((has_delay self ∧ flushes self ps next self')
     ∨ (¬ has_delay self ∧ ps = [] ∧ next = next ∧ self' = self))
    ∧ (length ps < 5)%nat
    ∧ length ps = 1%nat
    ∧ handle 5 self (loop_packet (index_ self), Some 7%nat)
      = (set_codec self' (avcodec_flush_buffers (codec_context_ self')),
         ((λ p, (frame_element p, Some 7%nat)) <$> ps) ++ [(loop_video, ticket_default)],
         next)
    ∧ handle 5 self (eof_packet (index_ self), Some 7%nat) = (self, [], break).
Proof.
  simpl.
  assert (∃ ps self',
            flushes (worker [got yuv_picture; nothing; got yuv_picture] 32) ps next self'
            ∧ length ps = 1%nat) as (ps & self' & Hfl & Hlen).
  { eexists _, _. split.
    - eapply flushes_frame; [reflexivity|reflexivity|].
      apply flushes_no_frame. reflexivity.
    - reflexivity. }
  exists ps, self'.
  assert (has_delay (worker [got yuv_picture; nothing; got yuv_picture] 32)) as Hdelay
    by (unfold has_delay; discriminate).
  assert ((length ps < 5)%nat) as Hfuel by (rewrite Hlen; lia).
  split; [by left|]. split; [exact Hfuel|]. split; [exact Hlen|].
  destruct (@handle_loop_packet ext 5 _ (Some 7%nat) ps next self'
              (or_introl (conj Hdelay Hfl)) Hfuel) as (Hh & _ & Heof).
  split; [exact Hh|exact Heof].
Defined.

(** C2, as stated, fails: when a flush decode fails, the loop packet gets
    no [loop_video], the codec is not flushed, and the worker ends. *)
Lemma handle_loop_packet_decode_failure :
  let self := worker [got yuv_picture; failure] 32 in
  let r := run 5 self [(loop_packet 0, Some 7%nat); (pkt [1], Some 8%nat)] in
  ¬ loop_signalled (handle 5 self (loop_packet 0, Some 7%nat))
  ∧ r.2 = terminated
  ∧ r.1.2.*2 = [Some 7%nat; None]
  ∧ Forall (λ e, e.1 ≠ loop_video) r.1.2.
Proof.
  split; [|split; [reflexivity|split; [reflexivity|]]].
  - intros [Hc _]. discriminate Hc.
  - vm_compute. repeat (constructor; [discriminate|]). constructor.
Qed.

End sample.
End video_decoder_spec.

(** ** Duplicated frames *)

Module dup_frame_facts.
Import video_decoder.
Section dup_frame_facts.
Context `{!externals}.

Lemma parallel_for_inv {St : Type} (I : nat → St → Prop) body n first (s s' : St) :
  I first s →
  (∀ k t t', (first ≤ k < first + n)%nat → I k t → body k t = Some t' → I (S k) t') →
  parallel_for first n body s = Some s' →
  I (first + n)%nat s'.
Proof.
  revert first s. induction n as [|n IH]; intros first s HI Hstep Hrun; simpl in Hrun.
  - injection Hrun as <-. by rewrite Nat.add_0_r.
  - destruct (body first s) as [s1|] eqn:Hbody; simpl in Hrun; [|done].
    replace (first + S n)%nat with (S first + n)%nat by lia.
    eapply IH; [| |exact Hrun].
    + eapply Hstep; [lia|exact HI|exact Hbody].
    + intros k t t' Hk. apply Hstep. lia.
Qed.

Lemma parallel_for_total {St : Type} (I : nat → St → Prop) body n first (s : St) :
  I first s →
  (∀ k t, (first ≤ k < first + n)%nat → I k t → ∃ t', body k t = Some t' ∧ I (S k) t') →
  ∃ s', parallel_for first n body s = Some s' ∧ I (first + n)%nat s'.
Proof.
  revert first s. induction n as [|n IH]; intros first s HI Hstep; simpl.
  - exists s. by rewrite Nat.add_0_r.
  - destruct (Hstep first s) as (s1 & Hbody & HI1); [lia|done|].
    rewrite Hbody. simpl.
    replace (first + S n)%nat with (S first + n)%nat by lia.
    apply IH; [done|]. intros k t Hk. apply Hstep. lia.
Qed.

Lemma set_data_id f : set_data f (data f) = f.
Proof. by destruct f. Qed.

Lemma size_t_small z : 0 ≤ z < 2 ^ size_t_bits → size_t z = z.
Proof. apply Z.mod_small. Qed.

Lemma lookup_of_drop (l l' : list Z) k :
  drop k l = drop k l' → l !! k = l' !! k.
Proof.
  intros Hdrop. pose proof (lookup_drop l k 0) as Hl.
  rewrite Hdrop, lookup_drop, Nat.add_0_r in Hl. done.
Qed.

Lemma drop_S_of_drop (l l' : list Z) k :
  drop k l = drop k l' → drop (S k) l = drop (S k) l'.
Proof.
  intros Hdrop. replace (S k) with (k + 1)%nat by lia.
  by rewrite <-!drop_drop, Hdrop.
Qed.

(** One plane of the duplication keeps the invariant. *)
Lemma dup_plane_step m a f desc k s s' :
  allocator_sound →
  dup_inv m a f desc k s →
  dup_plane a desc k s = Some s' →
  dup_inv m a f desc (S k) s'.
Proof.
  intros Hsound. destruct s as [mk [orgs reals]].
  intros (Hlo & Hlr & Hkd & Hk4 & Hnd & Horg & Hblk & Hother & Hfreed
          & dk & Hfr & Hldk & Hdrop) Hbody.
  simpl in *. unfold dup_plane in Hbody. rewrite Hfr, lookup_insert_eq in Hbody.
  simpl in Hbody.
  destruct (linesize f !! k) as [ls|] eqn:Hls; simpl in Hbody; [|done].
  destruct (planes desc !! k) as [pl|] eqn:Hpl; simpl in Hbody; [|done].
  destruct (dk !! k) as [org|] eqn:Hdk; simpl in Hbody; [|done].
  destruct (orgs !! k) as [o|] eqn:Ho; simpl in Hbody; [|done].
  set (bytes := size_t (size_t (ls * plane_height pl) + 16)) in *.
  set (real := scalable_aligned_malloc (blocks mk) bytes 32) in *.
  case_decide as Hnull; [done|]. injection Hbody as <-.
  assert (k < 4)%nat as Hk by (apply lookup_lt_Some in Ho; lia).
  assert (data f !! k = Some org) as Hdata
    by (rewrite <-(lookup_of_drop _ _ _ Hdrop); done).
  assert (blocks mk !! real = None) as Hfresh
    by (destruct (Hsound (blocks mk) bytes 32) as [?|?]; done).
  assert (real ∉ take k reals) as Hnew.
  { intros Hin. apply list_elem_of_lookup in Hin as [n Hn].
    destruct (Hblk n real Hn) as (_ & ? & ? & _ & _ & Hsome). congruence. }
  assert (take (S k) (<[k:=real]> reals) = take k reals ++ [real]) as Htake.
  { rewrite (take_S_r _ _ real) by (apply list_lookup_insert_eq; lia).
    by rewrite take_insert_ge. }
  unfold dup_inv. simpl. rewrite Htake.
  split; [by rewrite length_insert|]. split; [by rewrite length_insert|].
  split; [apply lookup_lt_Some in Hdata; lia|]. split; [lia|].
  split.
  { apply NoDup_app. split; [done|]. split; [|apply NoDup_singleton].
    intros x Hx Hx'. apply list_elem_of_singleton in Hx'. by subst. }
  split.
  { rewrite (take_S_r _ _ org) by (apply list_lookup_insert_eq; lia).
    rewrite (take_S_r (data f) _ org) by done.
    by rewrite take_insert_ge, Horg. }
  split.
  { intros n r Hn. apply lookup_snoc_Some in Hn as [[Hlt Hn]|[Hlen <-]].
    - destruct (Hblk n r Hn) as (Hm & ls' & pl' & Hls' & Hpl' & Hsome).
      split; [done|]. exists ls', pl'. split; [done|]. split; [done|].
      rewrite lookup_insert_ne; [done|]. congruence.
    - rewrite length_take_le in Hlen by lia. subst n.
      split; [by rewrite <-Hother|].
      exists ls, pl. split; [done|]. split; [done|]. apply lookup_insert_eq. }
  split.
  { intros r Hr. apply not_elem_of_app in Hr as [Hr Hr'].
    rewrite lookup_insert_ne; [by apply Hother|].
    intros <-. apply Hr'. by apply list_elem_of_singleton. }
  split; [done|].
  exists (<[k:=fast_memcpy_w_align_hack real org (size_t (ls * plane_height pl))]> dk).
  split; [by rewrite insert_insert_eq|].
  split; [by rewrite length_insert|].
  rewrite drop_insert_lt by lia. by apply drop_S_of_drop.
Qed.

(** What the loop of [dup_frame] leaves. *)
Lemma dup_frame_inv m a f m1 p :
  allocator_sound →
  frames m !! a = Some f →
  dup_frame m a = Some (m1, p) →
  let desc := get_pixel_format_desc (format f) (width f) (height f) in
  get p = a ∧ use_count p = 1%nat
  ∧ d_frame (get_deleter p) = a
  ∧ d_count (get_deleter p) = length (planes desc)
  ∧ dup_inv m a f desc (length (planes desc))
      (m1, (d_org_ptrs (get_deleter p), d_real_ptrs (get_deleter p))).
Proof.
  intros Hsound Hf Hdup. unfold dup_frame in Hdup. rewrite Hf in Hdup. simpl in *.
  destruct (parallel_for 0 _ _ _) as [[m' [orgs reals]]|] eqn:Hloop; simpl in Hdup; [|done].
  injection Hdup as <- <-. simpl. repeat (split; [done|]).
  apply (parallel_for_inv
           (dup_inv m a f (get_pixel_format_desc (format f) (width f) (height f)))
           _ _ 0 _ _) in Hloop; [done| |].
  - unfold dup_inv. simpl. repeat (split; [done || lia || constructor|]).
    exists (data f). rewrite set_data_id, insert_id by done. done.
  - intros k t t' _. by apply dup_plane_step.
Qed.

(** One plane of the deleter keeps its invariant, and does not get
    stuck. *)
Lemma delete_plane_step (d : deleter) m' a f d1 bufs k mk :
  d_frame d = a →
  bufs = take (d_count d) (d_real_ptrs d) →
  take (d_count d) (d_org_ptrs d) = take (d_count d) (data f) →
  length bufs = d_count d → NoDup bufs →
  (d_count d ≤ length (data f))%nat →
  (∀ r, r ∈ bufs → is_Some (blocks m' !! r)) →
  (k < d_count d)%nat →
  delete_inv m' a f d1 bufs k mk →
  ∃ mk', delete_plane d k mk = Some mk' ∧ delete_inv m' a f d1 bufs (S k) mk'.
Proof.
  intros Ha Hbufs Horgs Hlen Hnd Hcount Hlive Hk
         (Hblk & Hfreed & dk & Hfr & Hldk & Htake & Hdrop).
  assert (∃ r, bufs !! k = Some r) as [r Hr]
    by (apply lookup_lt_is_Some; lia).
  assert (d_real_ptrs d !! k = Some r) as Hreal
    by (rewrite Hbufs, lookup_take_lt in Hr; done).
  assert (∃ org, data f !! k = Some org) as [org Horg]
    by (apply lookup_lt_is_Some; lia).
  assert (d_org_ptrs d !! k = Some org) as Horg'.
  { rewrite <-(lookup_take_lt _ (d_count d)) by done.
    rewrite Horgs, lookup_take_lt; done. }
  assert (r ∉ take k bufs) as Hnew.
  { intros Hin. apply elem_of_take in Hin as (i & Hi & Hlt).
    assert (i = k) by (eapply NoDup_lookup; eauto). lia. }
  assert (is_Some (blocks mk !! r)) as [sz Hsz].
  { rewrite Hblk. case_decide; [done|]. apply Hlive.
    apply list_elem_of_lookup. by exists k. }
  assert (∃ x, dk !! k = Some x) as [x Hx]
    by (apply lookup_lt_is_Some; lia).
  unfold delete_plane, scalable_aligned_free.
  rewrite Hreal, Horg'. simpl. rewrite Hsz. simpl.
  rewrite Ha, Hfr, lookup_insert_eq. simpl. rewrite Hx. simpl.
  eexists. split; [reflexivity|].
  assert (take (S k) bufs = take k bufs ++ [r]) as Htk by (by apply take_S_r).
  unfold delete_inv. simpl. rewrite Htk. split; [|split].
  - intros r'. destruct (decide (r' = r)) as [->|Hne].
    + rewrite lookup_delete_eq. case_decide as Hin; [done|].
      exfalso. apply Hin. apply elem_of_app. right. by apply list_elem_of_singleton.
    + rewrite lookup_delete_ne, Hblk by done.
      destruct (decide (r' ∈ take k bufs)) as [Hi|Hn],
               (decide (r' ∈ take k bufs ++ [r])) as [Hi'|Hn']; try done.
      * exfalso. apply Hn'. apply elem_of_app. by left.
      * apply elem_of_app in Hi' as [Hi'|Hi']; [done|].
        by apply list_elem_of_singleton in Hi'.
  - by rewrite Hfreed, app_assoc.
  - exists (<[k:=org]> dk). split; [by rewrite insert_insert_eq|].
    split; [by rewrite length_insert|]. split.
    + rewrite (take_S_r _ _ org) by (apply list_lookup_insert_eq; lia).
      rewrite (take_S_r (data f) _ org) by done.
      by rewrite take_insert_ge, Htake.
    + rewrite drop_insert_lt by lia. by apply drop_S_of_drop.
Qed.

(** The deleter of a duplicated frame, run in a memory that kept the
    blocks and the frame object. *)
Lemma run_deleter_spec m a f m1 p m' :
  allocator_sound →
  frames m !! a = Some f →
  dup_frame m a = Some (m1, p) →
  let bufs := take (d_count (get_deleter p)) (d_real_ptrs (get_deleter p)) in
  keeps m1 m' bufs a →
  ∃ m2, run_deleter (get_deleter p) m' = Some m2
        ∧ (∀ r, blocks m2 !! r = if decide (r ∈ bufs) then None else blocks m' !! r)
        ∧ frames m2 = <[a := f]> (frames m')
        ∧ freed m2 = freed m' ++ bufs.
Proof.
  intros Hsound Hf Hdup bufs [Hkeep Hframe].
  destruct (dup_frame_inv _ _ _ _ _ Hsound Hf Hdup)
    as (_ & _ & Ha & Hcount
        & Hlo & Hlr & Hkd & Hk4 & Hnd & Horg & Hblk & Hother & Hfreed
        & d1 & Hfr & Hld1 & Hdrop).
  simpl in *. rewrite <-Hcount in *. fold bufs in Hnd, Hblk, Hother.
  assert (length bufs = d_count (get_deleter p)) as Hlen
    by (unfold bufs; rewrite length_take_le; lia).
  assert (frames m' !! a = Some (set_data f d1)) as Hf'
    by (rewrite Hframe, Hfr; apply lookup_insert_eq).
  destruct (parallel_for_total (delete_inv m' a f d1 bufs)
              (delete_plane (get_deleter p)) (d_count (get_deleter p)) 0 m')
    as (m2 & Hrun & Hblk2 & Hfreed2 & dk & Hfr2 & Hldk & Htake & Hdrop2).
  - unfold delete_inv. simpl. split; [|split].
    + done.
    + simpl. by rewrite app_nil_r.
    + exists d1. split; [by rewrite insert_id|]. done.
  - intros k t [_ Hk] Hinv. simpl in Hk.
    eapply delete_plane_step; eauto.
    intros r Hr. rewrite Hkeep by done.
    apply list_elem_of_lookup in Hr as [n Hn].
    destruct (Hblk n r Hn) as (_ & ? & ? & _ & _ & Hsome). by rewrite Hsome.
  - simpl in *. exists m2. split; [exact Hrun|].
    rewrite take_ge in Hblk2, Hfreed2 by lia.
    split; [exact Hblk2|]. split; [|exact Hfreed2].
    assert (dk = data f) as ->.
    { rewrite <-(take_drop (d_count (get_deleter p)) dk), Htake, Hdrop2, Hdrop.
      apply take_drop. }
    by rewrite Hfr2, set_data_id.
Qed.

(** Holders of a [safe_ptr]. *)
Lemma release_n_alive (p : safe_ptr) m holders k :
  (k < holders)%nat →
  release_n k (set_use_count p holders) m = Some (set_use_count p (holders - k), m).
Proof.
  revert holders. induction k as [|k IH]; intros holders Hk; simpl.
  - by rewrite Nat.sub_0_r.
  - unfold release. simpl.
    destruct holders as [|[|holders]]; [lia|lia|]. simpl.
    unfold set_use_count at 1. simpl.
    change {| get := get p; get_deleter := get_deleter p; use_count := S holders |}
      with (set_use_count p (S holders)).
    rewrite IH by lia. do 3 f_equal.
Qed.

Lemma release_n_last (p : safe_ptr) m holders :
  (0 < holders)%nat →
  release_n holders (set_use_count p holders) m
  = m2 ← run_deleter (get_deleter p) m; Some (set_use_count p 0, m2).
Proof.
  intros Hpos. destruct holders as [|k]; [lia|].
  replace (S k) with (k + 1)%nat by lia.
  assert (∀ a b q, release_n (a + b) q m
                   = '(q', m') ← release_n a q m; release_n b q' m') as Hsplit.
  { clear. intros a b. revert m. induction a as [|a IH]; intros m q; simpl; [done|].
    destruct (release q m) as [[q' m']|]; simpl; [apply IH|done]. }
  rewrite Hsplit, release_n_alive by lia. simpl.
  replace (k + 1 - k)%nat with 1%nat by lia.
  unfold release. simpl.
  by destruct (run_deleter (get_deleter p) m).
Qed.

Lemma copies_are_holders (p : safe_ptr) n :
  use_count p = 1%nat → Nat.iter n copy p = set_use_count p (S n).
Proof.
  intros Hone. induction n as [|n IH]; simpl.
  - destruct p. simpl in *. by subst.
  - by rewrite IH.
Qed.

End dup_frame_facts.
End dup_frame_facts.

Module dup_frame_spec.
Import video_decoder dup_frame_facts.

Section general.
Context `{!externals}.

(** C9. Duplicating the frame [f] at [a] allocates one block per plane,
    of [linesize * height + 16] bytes each, and nothing else. With any
    number of holders of the duplicated frame, and whatever the worker did
    to the memory in between as long as these blocks and the frame object
    are as they were, the deleter runs when the last holder lets go and
    not before; it frees exactly these blocks, each once, and writes the
    plane pointers of the decoder back into the frame object; afterwards
    there is no holder whose release could run it again. Released right
    away, blocks and frame objects are what they were before the
    duplication. *)
Theorem dup_frame_released_by_last_holder m a f m1 p :
  allocator_sound →
  frames m !! a = Some f →
  sizes_in_range f (get_pixel_format_desc (format f) (width f) (height f)) →
  dup_frame m a = Some (m1, p) →
  let desc := get_pixel_format_desc (format f) (width f) (height f) in
  let bufs := take (d_count (get_deleter p)) (d_real_ptrs (get_deleter p)) in
  allocated_by m m1 f desc bufs
  ∧ (∀ holders m', (0 < holders)%nat → keeps m1 m' bufs a →
       released_by_last p holders m' bufs a f)
  ∧ (∀ holders m2, (0 < holders)%nat →
       release_n holders (set_use_count p holders) m1 = Some (set_use_count p 0, m2) →
       blocks m2 = blocks m ∧ frames m2 = frames m ∧ freed m2 = freed m ++ bufs).
Proof.
  intros Hsound Hf Hrange Hdup desc bufs.
  destruct (dup_frame_inv _ _ _ _ _ Hsound Hf Hdup)
    as (_ & _ & Ha & Hcount
        & Hlo & Hlr & Hkd & Hk4 & Hnd & Horg & Hblk & Hother & Hfreed
        & d1 & Hfr & Hld1 & Hdrop).
  simpl in *. fold desc in Hcount, Hkd, Hk4, Hnd, Horg, Hblk, Hother, Hdrop.
  rewrite <-Hcount in *. fold bufs in Hnd, Hblk, Hother.
  assert (allocated_by m m1 f desc bufs) as Halloc.
  { unfold allocated_by. split; [unfold bufs; rewrite length_take_le; lia|].
    split; [done|]. split; [|done].
    intros n r Hn. destruct (Hblk n r Hn) as (Hnone & ls & pl & Hls & Hpl & Hsome).
    split; [done|]. exists ls, pl. split; [done|]. split; [done|].
    destruct (Hrange n ls pl Hls Hpl) as [Hlo' Hhi].
    rewrite (size_t_small (ls * plane_height pl)) in Hsome by lia.
    by rewrite size_t_small in Hsome by lia. }
  assert (∀ holders m', (0 < holders)%nat → keeps m1 m' bufs a →
            released_by_last p holders m' bufs a f) as Hrelease.
  { intros holders m' Hpos Hkeeps.
    destruct (run_deleter_spec _ _ _ _ _ m' Hsound Hf Hdup Hkeeps)
      as (m2 & Hrun & Hblk2 & Hfr2 & Hfreed2).
    split; [intros k Hk; by apply release_n_alive|].
    exists m2. rewrite release_n_last, Hrun by done. done. }
  split; [exact Halloc|]. split; [exact Hrelease|].
  intros holders m2 Hpos Hrel.
  destruct (Hrelease holders m1 Hpos) as (_ & m2' & Hrel' & Hblk2 & Hfr2 & Hfreed2 & _);
    [by split|].
  rewrite Hrel in Hrel'. injection Hrel' as <-.
  split; [|split].
  - apply map_eq. intros r. rewrite Hblk2. case_decide as Hin.
    + apply list_elem_of_lookup in Hin as [n Hn].
      by destruct (Hblk n r Hn) as [-> _].
    + by apply Hother.
  - by rewrite Hfr2, Hfr, insert_insert_eq, insert_id.
  - by rewrite Hfreed2, Hfreed.
Qed.

End general.

Section sample.
Import video_decoder_sample.
#[local] Existing Instance ext.

Lemma malloc_sound : allocator_sound.
Proof.
  intros allocated size alignment. right. simpl. unfold malloc.
  apply not_elem_of_dom.
  pose proof (is_fresh (dom allocated ∪ {[0]})) as Hfresh. set_solver.
Qed.

Lemma yuv_picture_in_range :
  sizes_in_range yuv_picture
    (get_pixel_format_desc (format yuv_picture) (width yuv_picture) (height yuv_picture)).
Proof.
  intros n ls pl Hls Hpl.
  destruct n as [|[|[|n]]]; simpl in Hls, Hpl; try discriminate;
    injection Hls as <-; injection Hpl as <-; vm_compute; split; congruence.
Qed.

Lemma dup_frame_released_by_last_holder_witness :
  let m := one_frame yuv_picture in
  ∃ m1 p,
    dup_frame m 1 = Some (m1, p)
    ∧ take (d_count (get_deleter p)) (d_real_ptrs (get_deleter p)) = [1; 2; 3]
    ∧ allocated_by m m1 yuv_picture (pixel_format 1 4 2) [1; 2; 3]
    ∧ released_by_last p 3 m1 [1; 2; 3] 1 yuv_picture
    ∧ (∀ m2, release_n 3 (set_use_count p 3) m1 = Some (set_use_count p 0, m2) →
         blocks m2 = blocks m ∧ frames m2 = frames m ∧ freed m2 = freed m ++ [1; 2; 3]).
Proof.
  assert (frames (one_frame yuv_picture) !! 1 = Some yuv_picture) as Hf
    by reflexivity.
  destruct (dup_frame (one_frame yuv_picture) 1) as [[m1 p]|] eqn:Hdup;
    [|discriminate Hdup].
  assert (take (d_count (get_deleter p)) (d_real_ptrs (get_deleter p)) = [1; 2; 3])
    as Hbufs.
  { vm_compute in Hdup. injection Hdup as <- <-. reflexivity. }
  destruct (dup_frame_released_by_last_holder _ _ _ _ _
              malloc_sound Hf yuv_picture_in_range Hdup)
    as (Halloc & Hrelease & Hround).
  simpl in Halloc, Hrelease, Hround. rewrite Hbufs in Halloc, Hrelease, Hround.
  exists m1, p. split; [exact Hdup|]. split; [exact Hbufs|].
  split; [exact Halloc|]. split.
  - apply Hrelease; [lia|]. by split.
  - intros m2. apply Hround. lia.
Defined.

End sample.
End dup_frame_spec.

(** ** The registry between ticks: [add] and [remove] *)

Module std_map_more.
Section std_map_more.
Context {A : Type}.
Implicit Types m : list (Z * A).

Lemma find_erase_eq k m : std_map.find k (std_map.erase k m) = None.
Proof.
  induction m as [|[k' v'] m IH]; [done|].
  unfold std_map.erase in *. rewrite filter_cons. simpl.
  case_decide as Hk; [|done]. simpl. by case_decide; [subst|].
Qed.

Lemma find_erase_ne j k m :
  j ≠ k → std_map.find j (std_map.erase k m) = std_map.find j m.
Proof.
  intros Hne. induction m as [|[k' v'] m IH]; [done|].
  unfold std_map.erase in *. rewrite filter_cons. simpl.
  case_decide as Hk; simpl; [by rewrite IH|].
  case_decide; [|done]. congruence.
Qed.

Lemma erase_absent k m : std_map.find k m = None → std_map.erase k m = m.
Proof.
  induction m as [|[k' v'] m IH]; [done|]. simpl.
  case_decide; [done|]. intros Hnone.
  unfold std_map.erase in *. rewrite filter_cons_True by (simpl; congruence).
  by rewrite IH.
Qed.

Lemma find_emplace_new k v m :
  std_map.find k m = None → std_map.find k (std_map.emplace k v m) = Some v.
Proof.
  induction m as [|[k' v'] m IH]; simpl.
  - intros _. by case_decide.
  - destruct (decide (k = k')) as [->|Hne]; [done|]. intros Hnone.
    destruct (decide (k < k')); simpl.
    + by case_decide.
    + destruct (decide (k = k')); [done|]. by apply IH.
Qed.

Lemma find_emplace_ne j k v m :
  j ≠ k → std_map.find j (std_map.emplace k v m) = std_map.find j m.
Proof.
  intros Hne. induction m as [|[k' v'] m IH]; simpl.
  - by case_decide.
  - destruct (decide (k < k')); simpl.
    + destruct (decide (j = k)); done.
    + destruct (decide (k = k')); simpl; [done|]. by rewrite IH.
Qed.

Lemma erase_emplace k v m :
  std_map.find k m = None → std_map.erase k (std_map.emplace k v m) = m.
Proof.
  induction m as [|[k' v'] m IH]; simpl.
  - intros _. unfold std_map.erase. rewrite filter_cons_False by (simpl; tauto). done.
  - destruct (decide (k = k')) as [->|Hne]; [done|]. intros Hnone.
    assert (std_map.erase k ((k', v') :: m) = (k', v') :: m) as Hsame
      by (apply erase_absent; simpl; by case_decide).
    destruct (decide (k < k')).
    + unfold std_map.erase in *.
      rewrite filter_cons_False by (simpl; tauto). exact Hsame.
    + destruct (decide (k = k')); [done|].
      unfold std_map.erase in *. rewrite filter_cons_True by (simpl; congruence).
      by rewrite IH.
Qed.

Lemma wf_erase k m : std_map.wf m → std_map.wf (std_map.erase k m).
Proof.
  induction m as [|[k' v'] m IH]; intros Hwf; [done|].
  apply std_map_facts.wf_cons_inv in Hwf as [Hwf Habove].
  unfold std_map.erase in *. rewrite filter_cons. case_decide; [|by apply IH].
  unfold std_map.wf, std_map.keys in *. simpl. constructor; [by apply IH|].
  rewrite Forall_fmap. rewrite Forall_forall in Habove. apply Forall_forall.
  intros p Hp. apply list_elem_of_filter in Hp as [_ Hp]. by apply Habove.
Qed.

Lemma emplace_Forall (P : Z * A → Prop) k v m :
  P (k, v) → Forall P m → Forall P (std_map.emplace k v m).
Proof.
  intros Hk. induction m as [|[k' v'] m IH]; intros Hall; simpl.
  - by constructor.
  - apply Forall_cons in Hall as [Hhd Hall].
    repeat case_decide; repeat constructor; auto.
Qed.

Lemma wf_emplace k v m : std_map.wf m → std_map.wf (std_map.emplace k v m).
Proof.
  induction m as [|[k' v'] m IH]; intros Hwf; simpl.
  - unfold std_map.wf, std_map.keys. simpl. by repeat constructor.
  - pose proof Hwf as Hwf0.
    apply std_map_facts.wf_cons_inv in Hwf as [Hwf Habove].
    destruct (decide (k < k')); [|destruct (decide (k = k')); [done|]].
    + unfold std_map.wf, std_map.keys in *. simpl. constructor; [done|].
      constructor; [done|]. rewrite Forall_fmap.
      eapply Forall_impl; [exact Habove|]. simpl. intros; lia.
    + unfold std_map.wf, std_map.keys in *. simpl. constructor; [by apply IH|].
      rewrite Forall_fmap. apply emplace_Forall; [simpl; lia|done].
Qed.

End std_map_more.
End std_map_more.

Module output_more_spec.
Import output output_facts output_more.

Section general.
Context `{!externals}.

Lemma set_consumers_same (self : impl) : set_consumers self (consumers_ self) = self.
Proof. by destruct self. Qed.

Lemma remove_consumers index self :
  consumers_ (remove index self).1 = std_map.erase index (consumers_ self).
Proof.
  unfold remove. destruct (std_map.find index (consumers_ self)) eqn:Hfind; [done|].
  simpl. by rewrite std_map_more.erase_absent.
Qed.

Lemma remove_fields index self :
  format_desc_ (remove index self).1 = format_desc_ self
  ∧ channel_index_ (remove index self).1 = channel_index_ self
  ∧ time_ (remove index self).1 = time_ self
  ∧ state_ (remove index self).1 = state_ self.
Proof. unfold remove. by destruct (std_map.find index (consumers_ self)). Qed.

(** X1. [remove(index)] unregisters the index and nothing else: afterwards the
    index is free, every other index holds the consumer it held, and
    format, deadline and state are untouched. Removing an index that is
    not registered changes nothing at all. The erase happens with the
    lock held. *)
Theorem remove_unregisters index self :
  let r := remove index self in
  std_map.find index (consumers_ r.1) = None
  ∧ (∀ j, j ≠ index →
       std_map.find j (consumers_ r.1) = std_map.find j (consumers_ self))
  ∧ (std_map.find index (consumers_ self) = None → r.1 = self)
  ∧ format_desc_ r.1 = format_desc_ self
  ∧ time_ r.1 = time_ self
  ∧ state_ r.1 = state_ self
  ∧ (std_map.wf (consumers_ self) → std_map.wf (consumers_ r.1))
  ∧ under_lock false r.2 = filter (λ e, is_erase e = true) r.2.
Proof.
  simpl. rewrite remove_consumers.
  destruct (remove_fields index self) as (Hf & _ & Ht & Hs).
  split; [apply std_map_more.find_erase_eq|].
  split; [intros j Hj; by apply std_map_more.find_erase_ne|].
  split; [intros Hnone; unfold remove; by rewrite Hnone|].
  split; [done|]. split; [done|]. split; [done|].
  split; [apply std_map_more.wf_erase|].
  unfold remove. by destruct (std_map.find index (consumers_ self)).
Qed.

(** X2. A successful [add(index, consumer)]: the consumer was initialized
    once, with the current format and the channel index, while the lock
    was not held; afterwards it is the one registered at the index, also
    when another one was registered there before; every other index holds
    the consumer it held. *)
Theorem add_registers index consumer self :
  initialize consumer (format_desc_ self) (channel_index_ self) = true →
  let r := add index consumer self in
  r.2 = returns
  ∧ std_map.find index (consumers_ r.1.1) = Some consumer
  ∧ (∀ j, j ≠ index →
       std_map.find j (consumers_ r.1.1) = std_map.find j (consumers_ self))
  ∧ initializations_of r.1.2 = [(index, format_desc_ self, channel_index_ self)]
  ∧ initializations_of (under_lock false r.1.2) = []
  ∧ (std_map.wf (consumers_ self) → std_map.wf (consumers_ r.1.1)).
Proof.
  intros Hinit. unfold add.
  pose proof (remove_consumers index self) as Hcs.
  destruct (remove_fields index self) as (Hf & Hc & _ & _).
  assert (∃ evs, (remove index self).2 = evs
                 ∧ initializations_of evs = []
                 ∧ ∀ tl, under_lock false (evs ++ tl) = filter (λ e, is_erase e = true) evs
                                                         ++ under_lock false tl)
    as (evs & Hevs & Hnoinit & Hlock).
  { unfold remove. destruct (std_map.find index (consumers_ self)); by eexists. }
  destruct (remove index self) as [self1 evs']. simpl in *. subst evs'.
  rewrite Hf, Hc, Hinit. simpl. rewrite Hcs.
  split; [done|].
  split; [apply std_map_more.find_emplace_new, std_map_more.find_erase_eq|].
  split; [intros j Hj; rewrite std_map_more.find_emplace_ne by done;
          by apply std_map_more.find_erase_ne|].
  split; [unfold initializations_of in *; by rewrite omap_app, Hnoinit|].
  split.
  - rewrite Hlock. simpl. unfold initializations_of. rewrite omap_app. simpl.
    rewrite app_nil_r. clear. induction evs as [|e evs IH]; [done|].
    rewrite filter_cons. destruct e; simpl; try done.
  - intros Hwf. by apply std_map_more.wf_emplace, std_map_more.wf_erase.
Qed.

(** X3. A failed [add(index, consumer)]: when [initialize] throws, [add]
    throws, the consumer is not registered and the lock is not taken
    again; a consumer that was registered at the index before is gone all
    the same, since [remove] comes first. *)
Theorem add_failed_leaves_index_free index consumer self :
  initialize consumer (format_desc_ self) (channel_index_ self) = false →
  let r := add index consumer self in
  r.2 = throws
  ∧ r.1.1 = (remove index self).1
  ∧ std_map.find index (consumers_ r.1.1) = None
  ∧ (∀ j, j ≠ index →
       std_map.find j (consumers_ r.1.1) = std_map.find j (consumers_ self))
  ∧ r.1.2 = (remove index self).2
            ++ [ev_initialize index (format_desc_ self) (channel_index_ self)].
Proof.
  intros Hinit. unfold add.
  pose proof (remove_consumers index self) as Hcs.
  destruct (remove_fields index self) as (Hf & Hc & _ & _).
  destruct (remove index self) as [self1 evs]. simpl in *.
  rewrite Hf, Hc, Hinit. simpl. rewrite Hcs.
  split; [done|]. split; [done|].
  split; [apply std_map_more.find_erase_eq|].
  split; [|done]. intros j Hj. by apply std_map_more.find_erase_ne.
Qed.

(** X4. [add] and then [remove] of the same consumer, at an index that was
    free: the dispatcher is what it was. *)
Theorem add_then_remove consumer self :
  std_map.find (index consumer) (consumers_ self) = None →
  initialize consumer (format_desc_ self) (channel_index_ self) = true →
  (remove_consumer consumer (add_consumer consumer self).1.1).1 = self.
Proof.
  intros Hfree Hinit. unfold remove_consumer, add_consumer, add.
  assert (remove (index consumer) self = (self, [ev_lock; ev_unlock])) as ->
    by (unfold remove; by rewrite Hfree).
  rewrite Hinit. simpl. unfold remove. simpl.
  rewrite std_map_more.find_emplace_new by done. simpl.
  rewrite std_map_more.erase_emplace by done.
  by destruct self.
Qed.

End general.
End output_more_spec.

(** ** Runs of ticks *)

Module ticks_spec.
Import output output_facts output_more.

Section general.
Context `{!externals}.

(** Every call of [operator()] is one of the four, by its arguments. *)
Lemma dispatch_cases self input_frame format_desc :
  input_frame = None
  ∨ (∃ fr, input_frame = Some fr ∧ frame_size fr ≠ desc_size (format_desc_ self))
  ∨ (∃ fr, format_change_tick self input_frame format_desc fr)
  ∨ (∃ fr, delivery_tick self input_frame format_desc fr).
Proof.
  destruct input_frame as [fr|]; [|by left]. right.
  destruct (decide (frame_size fr = desc_size (format_desc_ self))) as [Hsize|Hsize];
    [|left; by exists fr].
  right. destruct (format_desc_neq (format_desc_ self) format_desc) eqn:Hfmt;
    [left|right]; by exists fr.
Qed.

Lemma dispatch_dropped now self input_frame format_desc :
  input_frame = None
  ∨ (∃ fr, input_frame = Some fr ∧ frame_size fr ≠ desc_size (format_desc_ self)) →
  (dispatch now self input_frame format_desc).1 = self
  ∧ ((dispatch now self input_frame format_desc).2 = []
     ∨ ∃ msg, (dispatch now self input_frame format_desc).2 = [ev_log_warning msg]).
Proof.
  intros [->|(fr & -> & Hsize)]; simpl; [split; [done|by left]|].
  apply Z.eqb_neq in Hsize. rewrite Hsize. simpl. split; [done|]. right. by eexists.
Qed.

Lemma omap_no {B : Type} (f : event → option B) (g : event → bool) tr :
  (∀ e, g e = false → f e = None) → Forall (λ e, g e = false) tr → omap f tr = [].
Proof.
  intros Hfg. induction 1 as [|e tr He _ IH]; [done|].
  simpl. by rewrite (Hfg e He).
Qed.

Lemma send_events_quiet fr cs : Forall (λ e, quiet e = false) (flat_map (send_events fr) cs).
Proof. by apply send_events_no. Qed.

Lemma await_events_quiet futs : Forall (λ e, quiet e = false) (flat_map await_events futs).
Proof. by apply await_events_no. Qed.

Lemma under_lock_app_free held tr tl :
  Forall (λ e, is_lock e = false) tr →
  under_lock held (tr ++ tl) = (if held then tr else []) ++ under_lock held tl.
Proof.
  induction 1 as [|e tr He _ IH]; [by destruct held|].
  destruct e; simpl in *; try done; destruct held; simpl in *; by rewrite ?IH.
Qed.

Lemma under_lock_free held tr :
  Forall (λ e, is_lock e = false) tr → under_lock held tr = if held then tr else [].
Proof.
  intros Hfree. rewrite <-(app_nil_r tr) at 1.
  rewrite under_lock_app_free by done. simpl. by rewrite app_nil_r.
Qed.

(** The survivors of a delivery tick, without assuming anything about
    the registry. *)
Lemma delivery_survivors_sublist fr (cs : list (Z * frame_consumer)) :
  (await_each (send_each fr cs []).1.2 (send_each fr cs []).1.1).1 `sublist_of` cs.
Proof.
  rewrite await_each_consumers, send_each_consumers.
  etrans; apply sublist_filter.
Qed.

(** One call of [operator()] registers nobody. *)
Lemma dispatch_only_evicts now self input_frame format_desc :
  consumers_ (dispatch now self input_frame format_desc).1 `sublist_of` consumers_ self
  ∧ channel_index_ (dispatch now self input_frame format_desc).1 = channel_index_ self
  ∧ (std_map.wf (consumers_ self) →
     std_map.wf (consumers_ (dispatch now self input_frame format_desc).1)).
Proof.
  destruct (dispatch_cases self input_frame format_desc)
    as [Hno|[Hbad|[[fr Htick]|[fr Htick]]]].
  - by destruct (dispatch_dropped now self input_frame format_desc (or_introl Hno))
      as [-> _].
  - by destruct (dispatch_dropped now self input_frame format_desc (or_intror Hbad))
      as [-> _].
  - rewrite (dispatch_format_change _ _ _ _ _ Htick). simpl.
    split; [apply sublist_filter|]. split; [done|]. apply output_spec.wf_filter.
  - rewrite (dispatch_delivery _ _ _ _ _ Htick). simpl.
    split; [apply delivery_survivors_sublist|]. split; [done|].
    intros Hwf. rewrite survivors by done. by apply output_spec.wf_filter.
Qed.

(** X5. [operator()] registers nobody and reorders nothing: after any run of
    ticks, whatever the frames and formats, the registry is a
    subsequence of what it was, still with ascending unique keys; and the
    channel index never changes. *)
Theorem ticks_only_evict self calls :
  let r := ticks self calls in
  consumers_ r.1 `sublist_of` consumers_ self
  ∧ channel_index_ r.1 = channel_index_ self
  ∧ (std_map.wf (consumers_ self) → std_map.wf (consumers_ r.1)).
Proof.
  simpl. revert self. induction calls as [|[[now input_frame] format_desc] calls IH];
    intros self; simpl; [done|].
  destruct (dispatch_only_evicts now self input_frame format_desc) as (Hsub & Hch & Hwf).
  destruct (dispatch now self input_frame format_desc) as [self1 tr1].
  specialize (IH self1). destruct (ticks self1 calls) as [self2 tr2].
  simpl in *. destruct IH as (IHsub & IHch & IHwf).
  split; [by etrans|]. split; [congruence|]. auto.
Qed.

(** X6. The lock in a tick: no [send], no wait for a future, no read of the
    clock and no sleep happens while [consumers_mutex_] is held; every
    [initialize] of a tick happens while it is held. *)
Theorem dispatch_lock_discipline now self input_frame format_desc :
  let tr := (dispatch now self input_frame format_desc).2 in
  sends_of (under_lock false tr) = []
  ∧ Forall (λ e, is_get e = false) (under_lock false tr)
  ∧ waits_of (under_lock false tr) = []
  ∧ clock_reads (under_lock false tr) = 0%nat
  ∧ initializations_of (under_lock false tr) = initializations_of tr.
Proof.
  simpl.
  destruct (dispatch_cases self input_frame format_desc)
    as [Hno|[Hbad|[[fr Htick]|[fr Htick]]]].
  - destruct (dispatch_dropped now self input_frame format_desc (or_introl Hno))
      as [_ [->|[msg ->]]]; by repeat split.
  - destruct (dispatch_dropped now self input_frame format_desc (or_intror Hbad))
      as [_ [->|[msg ->]]]; by repeat split.
  - rewrite (dispatch_format_change _ _ _ _ _ Htick). cbn [snd].
    set (inits := flat_map (initialize_events format_desc) (consumers_ self)).
    assert (Forall (λ e, match e with
                         | ev_initialize _ _ _ | ev_log_exception | ev_erase _ => true
                         | _ => false
                         end = true) inits) as Hinits.
    { unfold inits. generalize (consumers_ self). intros cs.
      induction cs as [|[i c] cs IH]; [constructor|]. simpl.
      apply Forall_app. split; [|done]. unfold initialize_events.
      destruct (initialize _ _ _); by repeat constructor. }
    assert (under_lock false ([ev_lock] ++ inits ++ [ev_unlock]) = inits) as ->.
    { simpl. rewrite under_lock_app_free; [simpl; by rewrite app_nil_r|].
      eapply Forall_impl; [exact Hinits|]. by intros []. }
    split; [|split; [|split; [|split]]].
    + unfold sends_of. clear -Hinits. induction Hinits as [|e l He _ IH]; [done|].
      by destruct e.
    + eapply Forall_impl; [exact Hinits|]. by intros [].
    + unfold waits_of. clear -Hinits. induction Hinits as [|e l He _ IH]; [done|].
      by destruct e.
    + unfold clock_reads. clear -Hinits. induction Hinits as [|e l He _ IH]; [done|].
      by destruct e.
    + unfold initializations_of. rewrite !omap_app. simpl. by rewrite app_nil_r.
  - rewrite (dispatch_delivery _ _ _ _ _ Htick). cbn [snd].
    rewrite send_each_events, await_each_events.
    set (sends := flat_map (send_events fr) (consumers_ self)).
    set (awaits := flat_map await_events _).
    set (pacing := if needs_sync _ then _ else _).
    assert (Forall (λ e, is_lock e = false) (sends ++ awaits ++ pacing)) as Hfree.
    { apply Forall_app. split; [by apply send_events_no|].
      apply Forall_app. split; [by apply await_events_no|].
      unfold pacing. destruct (needs_sync _); [|constructor].
      apply Forall_singleton. by destruct (time_ self). }
    assert (initializations_of (sends ++ awaits ++ pacing) = []) as Hnoinit.
    { unfold initializations_of. rewrite !omap_app.
      rewrite (omap_no _ quiet sends), (omap_no _ quiet awaits);
        [|by intros []|apply await_events_quiet|by intros []|apply send_events_quiet].
      unfold pacing. destruct (needs_sync _); [|done]. by destruct (time_ self). }
    change ([ev_lock; ev_copy (std_map.keys (consumers_ self)); ev_unlock]
            ++ sends ++ awaits ++ pacing)
      with (ev_lock :: ev_copy (std_map.keys (consumers_ self)) :: ev_unlock
            :: (sends ++ awaits ++ pacing)).
    cbn [under_lock]. rewrite under_lock_free by done.
    repeat split; try done. repeat constructor.
Qed.

Lemma omap_send_events {B : Type} (f : event → option B) fr cs :
  (∀ e, quiet e = false → f e = None) → omap f (flat_map (send_events fr) cs) = [].
Proof. intros Hf. eapply omap_no; [exact Hf|apply send_events_quiet]. Qed.

Lemma omap_await_events {B : Type} (f : event → option B) futs :
  (∀ e, quiet e = false → f e = None) → omap f (flat_map await_events futs) = [].
Proof. intros Hf. eapply omap_no; [exact Hf|apply await_events_quiet]. Qed.

(** The [send]s of a delivery tick, whatever the registry. *)
Lemma delivery_sends now self input_frame format_desc fr :
  delivery_tick self input_frame format_desc fr →
  let tr := (dispatch now self input_frame format_desc).2 in
  sends_of tr = (λ p, (p.1, fr)) <$> consumers_ self
  ∧ initializations_of tr = [].
Proof.
  intros Htick. simpl. rewrite (dispatch_delivery _ _ _ _ _ Htick). cbn [snd].
  rewrite send_each_events, await_each_events.
  split.
  - unfold sends_of. rewrite !omap_app.
    fold (sends_of (flat_map (send_events fr) (consumers_ self))).
    rewrite sends_of_send_events.
    rewrite (omap_no _ is_send (flat_map await_events _));
      [|by intros []|by apply await_events_no].
    simpl. destruct (needs_sync _); simpl; [|by rewrite app_nil_r].
    destruct (time_ self); simpl; by rewrite app_nil_r.
  - unfold initializations_of. rewrite !omap_app.
    rewrite omap_send_events, omap_await_events by (by intros []).
    simpl. destruct (needs_sync _); simpl; [|done]. by destruct (time_ self).
Qed.

(** X7. A format change and the tick after it: when the next call comes with
    the new format again and a frame of its size, [send] goes to exactly
    the consumers whose [initialize] did not throw, in key order, and no
    consumer is initialized a second time. *)
Theorem format_change_then_delivery now now' self input_frame fr fr' format_desc :
  format_change_tick self input_frame format_desc fr →
  format_desc_neq format_desc format_desc = false →
  frame_size fr' = desc_size format_desc →
  let self1 := (dispatch now self input_frame format_desc).1 in
  let r := dispatch now' self1 (Some fr') format_desc in
  sends_of r.2
  = (λ p, (p.1, fr'))
    <$> filter (λ p, initialize p.2 format_desc p.1 = true) (consumers_ self)
  ∧ initializations_of r.2 = []
  ∧ format_desc_ r.1 = format_desc.
Proof.
  intros Hchange Hrefl Hsize. cbv zeta.
  rewrite (dispatch_format_change _ _ _ _ _ Hchange). cbn [fst].
  set (self1 := {| state_ := state_ self; channel_index_ := channel_index_ self;
                   format_desc_ := format_desc;
                   consumers_ := filter (λ p, initialize p.2 format_desc p.1 = true)
                                   (consumers_ self);
                   time_ := None |}).
  assert (delivery_tick self1 (Some fr') format_desc fr') as Htick by done.
  destruct (delivery_sends now' _ _ _ _ Htick) as [Hsends Hinits].
  split; [exact Hsends|]. split; [exact Hinits|].
  by rewrite (dispatch_delivery _ _ _ _ _ Htick).
Qed.

Lemma filter_all {A : Type} (P : A → Prop) `{!∀ x, Decision (P x)} (l : list A) :
  Forall P l → filter P l = l.
Proof.
  induction 1 as [|x l Hx _ IH]; [done|]. by rewrite filter_cons_True, IH.
Qed.

Lemma steady_needs_sync fr (cs : list (Z * frame_consumer)) :
  steady fr cs → needs_sync cs = true.
Proof.
  unfold needs_sync. induction 1 as [|p cs [_ Hp] _ IH]; [done|].
  simpl. by rewrite Hp, IH.
Qed.

(** One tick of a dispatcher all of whose consumers take the frame and
    have no clock. *)
Lemma steady_tick now self input_frame format_desc fr :
  delivery_tick self input_frame format_desc fr →
  std_map.wf (consumers_ self) →
  steady fr (consumers_ self) →
  let r := dispatch now self input_frame format_desc in
  consumers_ r.1 = consumers_ self
  ∧ format_desc_ r.1 = format_desc_ self
  ∧ time_ r.1 = Some (default now (time_ self) + period (format_desc_ self))
  ∧ waits_of r.2 = match time_ self with Some t => [t] | None => [] end
  ∧ clock_reads r.2 = match time_ self with Some _ => 0%nat | None => 1%nat end.
Proof.
  intros Htick Hwf Hsteady. simpl.
  rewrite (dispatch_delivery _ _ _ _ _ Htick). cbn [fst snd consumers_ time_ format_desc_].
  rewrite survivors by done.
  assert (filter (λ p, accepts fr p.2 = true) (consumers_ self) = consumers_ self) as ->.
  { apply filter_all. eapply Forall_impl; [exact Hsteady|]. by intros p [? _]. }
  rewrite (steady_needs_sync _ _ Hsteady).
  rewrite send_each_events, await_each_events.
  split; [done|]. split; [done|]. split; [done|].
  unfold waits_of, clock_reads. rewrite !omap_app.
  rewrite !omap_send_events, !omap_await_events by (by intros []).
  by destruct (time_ self).
Qed.

Lemma deadlines_S t p n : deadlines t p (S n) = t :: deadlines (t + p) p n.
Proof.
  unfold deadlines. simpl. f_equal; [lia|].
  rewrite <-fmap_S_seq, <-list_fmap_compose. apply list_fmap_ext.
  intros _ i _. simpl. lia.
Qed.

Lemma steady_ticks_from_deadline self fr format_desc nows t :
  delivery_tick self (Some fr) format_desc fr →
  std_map.wf (consumers_ self) →
  steady fr (consumers_ self) →
  time_ self = Some t →
  let r := ticks self ((λ now, (now, Some fr, format_desc)) <$> nows) in
  consumers_ r.1 = consumers_ self
  ∧ time_ r.1 = Some (t + Z.of_nat (length nows) * period (format_desc_ self))
  ∧ waits_of r.2 = deadlines t (period (format_desc_ self)) (length nows)
  ∧ clock_reads r.2 = 0%nat.
Proof.
  simpl. revert self t. induction nows as [|now nows IH]; intros self t Htick Hwf Hsteady Ht.
  { simpl. rewrite Ht. repeat split. f_equal. lia. }
  cbn [fmap list_fmap ticks].
  destruct (steady_tick now _ _ _ _ Htick Hwf Hsteady) as (Hcs & Hfmt & Htime & Hwaits & Hreads).
  rewrite Ht in Htime, Hwaits, Hreads. cbn [default from_option id] in Htime.
  destruct (dispatch now self (Some fr) format_desc) as [self1 tr1]. simpl in *.
  assert (delivery_tick self1 (Some fr) format_desc fr) as Htick1.
  { destruct Htick as (? & ? & ?). unfold delivery_tick. by rewrite Hfmt. }
  specialize (IH self1 (t + period (format_desc_ self)) Htick1).
  rewrite Hcs, Hfmt in IH. specialize (IH Hwf Hsteady Htime).
  change (list_fmap _ _ ?f nows) with (f <$> nows) in *.
  destruct (ticks self1 _) as [self2 tr2]. simpl in *.
  destruct IH as (IHcs & IHtime & IHwaits & IHreads).
  split; [done|]. split; [rewrite IHtime; f_equal; lia|].
  unfold waits_of, clock_reads in *. rewrite !omap_app, length_app.
  rewrite Hwaits, IHwaits, Hreads, IHreads. by rewrite deadlines_S.
Qed.

(** X8. Pacing does not drift. Let every registered consumer take the frame
    and have no synchronization clock (or let there be none). Over any
    number of ticks, whenever they are called, the registry stays as it
    is, the waits are for deadlines exactly one period apart, and the
    deadline after [n] ticks is the first one plus [n] periods. With a
    deadline set the clock is never read; without one it is read once, by
    the first tick, which does not wait. *)
Theorem steady_ticks_do_not_drift self fr format_desc nows :
  delivery_tick self (Some fr) format_desc fr →
  std_map.wf (consumers_ self) →
  steady fr (consumers_ self) →
  let r := ticks self ((λ now, (now, Some fr, format_desc)) <$> nows) in
  let p := period (format_desc_ self) in
  consumers_ r.1 = consumers_ self
  ∧ match time_ self, nows with
    | Some t, _ =>
        time_ r.1 = Some (t + Z.of_nat (length nows) * p)
        ∧ waits_of r.2 = deadlines t p (length nows)
        ∧ clock_reads r.2 = 0%nat
    | None, [] => time_ r.1 = None
    | None, now1 :: rest =>
        time_ r.1 = Some (now1 + Z.of_nat (length nows) * p)
        ∧ waits_of r.2 = deadlines (now1 + p) p (length rest)
        ∧ clock_reads r.2 = 1%nat
    end.
Proof.
  intros Htick Hwf Hsteady. simpl.
  destruct (time_ self) as [t|] eqn:Ht.
  { by destruct (steady_ticks_from_deadline self fr format_desc nows t Htick Hwf Hsteady Ht)
      as (? & ? & ? & ?). }
  destruct nows as [|now1 rest]; [done|].
  cbn [fmap list_fmap ticks].
  destruct (steady_tick now1 _ _ _ _ Htick Hwf Hsteady) as (Hcs & Hfmt & Htime & Hwaits & Hreads).
  rewrite Ht in Htime, Hwaits, Hreads. cbn [default from_option id] in Htime.
  destruct (dispatch now1 self (Some fr) format_desc) as [self1 tr1]. simpl in *.
  assert (delivery_tick self1 (Some fr) format_desc fr) as Htick1.
  { destruct Htick as (? & ? & ?). unfold delivery_tick. by rewrite Hfmt. }
  pose proof (steady_ticks_from_deadline self1 fr format_desc rest
                (now1 + period (format_desc_ self)) Htick1) as Hrest.
  rewrite Hcs, Hfmt in Hrest. specialize (Hrest Hwf Hsteady Htime). simpl in Hrest.
  change (list_fmap _ _ ?f rest) with (f <$> rest) in *.
  destruct (ticks self1 _) as [self2 tr2]. simpl in *.
  destruct Hrest as (Hcs2 & Htime2 & Hwaits2 & Hreads2).
  split; [done|]. split; [rewrite Htime2; f_equal; lia|].
  unfold waits_of, clock_reads in *. rewrite !omap_app, length_app.
  by rewrite Hwaits, Hwaits2, Hreads, Hreads2.
Qed.

(** X9. A consumer with a synchronization clock that takes the frame keeps
    the dispatcher from pacing: the tick does not sleep, does not read
    the clock, and leaves the deadline as it found it. *)
Theorem clocked_tick_does_not_pace now self input_frame format_desc fr i c :
  delivery_tick self input_frame format_desc fr →
  std_map.wf (consumers_ self) →
  (i, c) ∈ consumers_ self →
  accepts fr c = true →
  has_synchronization_clock c = true →
  let r := dispatch now self input_frame format_desc in
  (i, c) ∈ consumers_ r.1
  ∧ time_ r.1 = time_ self
  ∧ waits_of r.2 = []
  ∧ clock_reads r.2 = 0%nat.
Proof.
  intros Htick Hwf Hin Hacc Hclock. simpl.
  rewrite (dispatch_delivery _ _ _ _ _ Htick). cbn [fst snd consumers_ time_].
  rewrite survivors by done.
  assert ((i, c) ∈ filter (λ p, accepts fr p.2 = true) (consumers_ self)) as Hin'
    by (apply list_elem_of_filter; by split).
  assert (needs_sync (filter (λ p, accepts fr p.2 = true) (consumers_ self)) = false)
    as ->.
  { apply not_true_is_false. intros Hsync. unfold needs_sync in Hsync.
    rewrite forallb_forall in Hsync.
    specialize (Hsync (i, c)). simpl in Hsync. rewrite Hclock in Hsync.
    apply list_elem_of_In in Hin'. by specialize (Hsync Hin'). }
  rewrite send_each_events, await_each_events.
  split; [done|]. split; [done|].
  unfold waits_of, clock_reads. rewrite !omap_app.
  rewrite !omap_send_events, !omap_await_events by (by intros []).
  done.
Qed.

Lemma collect_from_size (st : gmap string monitor_state) (cs : list (Z * frame_consumer)) :
  NoDup (std_map.keys cs) →
  (∀ i, i ∈ std_map.keys cs → st !! port_key i = None) →
  size (foldl (λ st p, <[port_key p.1 := state p.2]> st) st cs)
  = (size st + length cs)%nat.
Proof.
  revert st. induction cs as [|[i c] cs IH]; intros st Hnd Hfree; simpl; [lia|].
  unfold std_map.keys in *. simpl in *. apply NoDup_cons in Hnd as [Hi Hnd].
  rewrite IH; [|done|].
  - rewrite map_size_insert_None; [lia|]. apply Hfree. left.
  - intros j Hj. rewrite lookup_insert_ne; [apply Hfree; by right|].
    intros Heq. apply port_key_inj in Heq. by subst.
Qed.

(** X10. The state after a delivery tick has one entry for each consumer that
    is left: the keys "port/<index>" of different indices never
    collide. *)
Theorem delivery_state_size now self input_frame format_desc fr :
  delivery_tick self input_frame format_desc fr →
  std_map.wf (consumers_ self) →
  let r := dispatch now self input_frame format_desc in
  size (state_ r.1) = length (consumers_ r.1)
  ∧ dom (state_ r.1) = list_to_set ((λ p, "port/" +:+ pretty p.1) <$> consumers_ r.1).
Proof.
  intros Htick Hwf. simpl.
  rewrite (dispatch_delivery _ _ _ _ _ Htick). cbn [fst state_ consumers_].
  rewrite survivors by done.
  set (cs := filter (λ p, accepts fr p.2 = true) (consumers_ self)).
  assert (std_map.wf cs) as Hwf' by (by apply output_spec.wf_filter).
  split.
  - unfold collect_state. rewrite collect_from_size.
    + by rewrite map_size_empty.
    + by apply std_map_facts.wf_NoDup.
    + intros. apply lookup_empty.
  - apply set_eq. intros k. rewrite elem_of_dom, elem_of_list_to_set, list_elem_of_fmap.
    split.
    + intros [v Hv]. apply collect_from_lookup in Hv as [Hv|(i & c & Hin & -> & _)].
      * by rewrite lookup_empty in Hv.
      * by exists (i, c).
    + intros ([i c] & -> & Hin). exists (state c).
      by apply collect_from_member.
Qed.

Lemma add_wf index consumer self :
  std_map.wf (consumers_ self) → std_map.wf (consumers_ (add index consumer self).1.1).
Proof.
  intros Hwf. unfold add.
  pose proof (output_more_spec.remove_consumers index self) as Hcs.
  destruct (remove index self) as [self1 evs]. simpl in *.
  destruct (initialize consumer _ _); simpl; rewrite Hcs.
  - by apply std_map_more.wf_emplace, std_map_more.wf_erase.
  - by apply std_map_more.wf_erase.
Qed.

Lemma add_channel index consumer self :
  channel_index_ (add index consumer self).1.1 = channel_index_ self.
Proof.
  unfold add.
  destruct (output_more_spec.remove_fields index self) as (_ & Hc & _).
  destruct (remove index self) as [self1 evs]. simpl in *.
  by destruct (initialize consumer _ _).
Qed.

(** X11. Whatever is done with a dispatcher after its construction, in any
    order and with any arguments - adding, also with a consumer whose
    [initialize] throws, removing, ticks - its registry has unique
    ascending keys and its channel index is the one it was constructed
    with. *)
Theorem reachable_registry_is_ordered format_desc channel_index ops :
  let self := foldl perform (construct format_desc channel_index) ops in
  std_map.wf (consumers_ self) ∧ channel_index_ self = channel_index.
Proof.
  simpl.
  assert (∀ self, std_map.wf (consumers_ self) →
            std_map.wf (consumers_ (foldl perform self ops))
            ∧ channel_index_ (foldl perform self ops) = channel_index_ self) as Hinv.
  { induction ops as [|o ops IH]; intros self Hwf; simpl; [done|].
    assert (std_map.wf (consumers_ (perform self o))
            ∧ channel_index_ (perform self o) = channel_index_ self) as [Hwf' Hch].
    { destruct o as [i c|c|i|c|now input_frame fmt]; simpl.
      - split; [by apply add_wf|apply add_channel].
      - split; [by apply add_wf|apply add_channel].
      - rewrite output_more_spec.remove_consumers.
        split; [by apply std_map_more.wf_erase|].
        by destruct (output_more_spec.remove_fields i self) as (_ & ? & _).
      - unfold remove_consumer. rewrite output_more_spec.remove_consumers.
        split; [by apply std_map_more.wf_erase|].
        by destruct (output_more_spec.remove_fields (index c) self) as (_ & ? & _).
      - destruct (dispatch_only_evicts now self input_frame fmt) as (_ & Hch & Hwf').
        split; [by apply Hwf'|done]. }
    destruct (IH _ Hwf') as [IHwf IHch]. split; [done|congruence]. }
  apply Hinv. constructor.
Qed.

End general.
End ticks_spec.

(** ** The worker over a whole source *)

Module run_spec.
Import video_decoder video_decoder_facts video_decoder_more.

Section general.
Context `{!externals}.

(** X12. A worker does not see the packets of other streams, their loop and
    eof sentinels included: taking one out of what is offered changes
    nothing. *)
Theorem run_ignores_other_streams fuel self before element after :
  stream_index (deref element.1) ≠ index_ self →
  run fuel self (before ++ element :: after) = run fuel self (before ++ after).
Proof.
  intros Hother. unfold run. rewrite !filter_app, filter_cons_False; [done|].
  unfold source_. intros Htrue. by apply bool_decide_eq_true in Htrue.
Qed.

Lemma decode_progressive self pkt :
  is_progressive_ (decode self pkt).1 = is_progressive_ self.
Proof.
  unfold decode. destruct (avcodec_decode_video2 _ _) as [c r].
  repeat case_match; done.
Qed.

Lemma flush_delayed_progressive fuel self ticket :
  is_progressive_ (flush_delayed fuel self ticket).1.1 = is_progressive_ self.
Proof.
  revert self. induction fuel as [|fuel IH]; intros self; simpl; [done|].
  pose proof (decode_progressive self flush_pkt) as Hd.
  destruct (decode self flush_pkt) as [self1 [| |a]]; simpl in *; try done.
  destruct (dup_frame (heap self1) a) as [[m p]|]; simpl; [|done].
  specialize (IH (set_heap self1 m)).
  destruct (flush_delayed fuel (set_heap self1 m) ticket) as [[self2 out] c].
  simpl in *. congruence.
Qed.



(** The three outcomes of [decode]. *)
Lemma decode_spec self pkt :
  let res := (avcodec_decode_video2 (codec_context_ self) pkt).2 in
  match (decode self pkt).2 with
  | threw => (ret res <? 0) = true ∧ heap (decode self pkt).1 = heap self
  | no_frame =>
      (ret res <? 0) = false ∧ (frame_finished res =? 0) = true
      ∧ heap (decode self pkt).1 = heap self
  | decoded_frame a =>
      (ret res <? 0) = false ∧ (frame_finished res =? 0) = false
      ∧ a = avcodec_alloc_frame (heap self)
      ∧ heap (decode self pkt).1
        = {| blocks := blocks (heap self);
             frames := <[a := picture res]> (frames (heap self));
             freed := freed (heap self) |}
  end.
Proof.
  simpl. unfold decode. destruct (avcodec_decode_video2 _ _) as [c r]. simpl.
  destruct (ret r <? 0); [done|]. destruct (frame_finished r =? 0); [done|].
  by destruct (0 <? repeat_pict (picture r)).
Qed.


(** X14. [is_progressive_] follows the data packets only: a data packet that
    gives a frame sets it to whether the frame is not interlaced; a loop
    packet, with all the frames flushed for it, an eof packet, a packet
    without a finished frame and a failed decode leave it as it is. *)
Theorem handle_tracks_progressive fuel self element :
  let res := (avcodec_decode_video2 (codec_context_ self) (deref element.1)).2 in
  is_progressive_ (handle fuel self element).1.1
  = if decide (element.1 = loop_packet (index_ self)) then is_progressive_ self
    else if decide (element.1 = eof_packet (index_ self)) then is_progressive_ self
    else if (ret res <? 0) || (frame_finished res =? 0) then is_progressive_ self
    else bool_decide (interlaced_frame (picture res) = 0).
Proof.
  simpl. unfold handle.
  destruct (decide (element.1 = loop_packet (index_ self))).
  - case_decide; [|done].
    pose proof (flush_delayed_progressive fuel self element.2) as Hf.
    destruct (flush_delayed fuel self element.2) as [[self1 out] c].
    simpl in *. by destruct c.
  - destruct (decide (element.1 = eof_packet (index_ self))); [done|].
    pose proof (decode_spec self (deref element.1)) as Hspec.
    pose proof (decode_progressive self (deref element.1)) as Hprog.
    simpl in Hspec.
    destruct (decode self (deref element.1)) as [self1 [| |a]]; simpl in *.
    + destruct Hspec as [-> _]. done.
    + destruct Hspec as (-> & -> & _). done.
    + destruct Hspec as (-> & -> & _ & Hheap). simpl.
      rewrite Hheap. simpl. rewrite lookup_insert_eq.
      by destruct (dup_frame _ a) as [[m p]|].
Qed.

(** *** Loop signals *)

Lemma frames_no_loops ticket (out : list target_element_t) :
  Forall (λ e, ∃ p, e = (frame_element p, ticket)) out → loops_out out = 0%nat.
Proof.
  unfold loops_out. induction 1 as [|e out [p ->] _ IH]; [done|].
  by rewrite filter_cons_False.
Qed.

Lemma loops_out_app (out out' : list target_element_t) :
  loops_out (out ++ out') = (loops_out out + loops_out out')%nat.
Proof. unfold loops_out. by rewrite filter_app, length_app. Qed.

Lemma handle_loops fuel self element :
  loops_out (handle fuel self element).1.2
  = if decide (element.1 = loop_packet (index_ self))
    then match (handle fuel self element).2 with next => 1%nat | _ => 0%nat end
    else 0%nat.
Proof.
  unfold handle. destruct (decide (element.1 = loop_packet (index_ self))).
  - case_decide.
    + pose proof (flush_delayed_frames fuel self element.2) as Hf.
      apply frames_no_loops in Hf.
      destruct (flush_delayed fuel self element.2) as [[self1 out] c].
      simpl in *. destruct c; simpl; try done.
      rewrite loops_out_app, Hf. done.
    + done.
  - destruct (decide (element.1 = eof_packet (index_ self))); [done|].
    destruct (decode self (deref element.1)) as [self1 [| |a]]; simpl; try done.
    by destruct (dup_frame _ a) as [[m p]|].
Qed.

Lemma receive_loop_loops fuel self source :
  (loops_out (receive_loop fuel self source).1.2 ≤ loops_in (index_ self) source)%nat
  ∧ ((receive_loop fuel self source).2 = next →
     loops_out (receive_loop fuel self source).1.2 = loops_in (index_ self) source).
Proof.
  revert self. induction source as [|element rest IH]; intros self; simpl; [done|].
  pose proof (handle_loops fuel self element) as Hh.
  pose proof (handle_index fuel self element) as Hi.
  unfold loops_in. rewrite filter_cons.
  destruct (handle fuel self element) as [[self1 out] c]. simpl in *.
  specialize (IH self1). rewrite Hi in IH. unfold loops_in in IH.
  destruct (decide (element.1 = loop_packet (index_ self))).
  - destruct c; simpl; try (rewrite Hh; split; [lia|done]).
    destruct (receive_loop fuel self1 rest) as [[self2 out2] c2]. simpl in *.
    rewrite loops_out_app, Hh. destruct IH as [IHle IHeq].
    split; [lia|]. intros Hc. rewrite IHeq by done. done.
  - destruct c; simpl; try (rewrite Hh; split; [lia|done]).
    destruct (receive_loop fuel self1 rest) as [[self2 out2] c2]. simpl in *.
    rewrite loops_out_app, Hh. destruct IH as [IHle IHeq].
    split; [lia|]. intros Hc. rewrite IHeq by done. done.
Qed.

(** X15. The worker never emits a [loop_video] without a loop packet: over any
    run, there are at most as many [loop_video] in the output as loop
    packets of this stream in the source; and a worker that has handled
    all of its source and is waiting for more has emitted exactly one for
    each. *)
Theorem run_loop_signals fuel self source :
  let r := run fuel self source in
  (loops_out r.1.2 ≤ loops_in (index_ self) source)%nat
  ∧ (r.2 = receiving → loops_out r.1.2 = loops_in (index_ self) source).
Proof.
  simpl. unfold run.
  destruct (receive_loop_loops fuel self (filter (λ e, source_ self e = true) source))
    as [Hle Heq].
  assert (loops_in (index_ self) (filter (λ e, source_ self e = true) source)
          = loops_in (index_ self) source) as Hsame.
  { unfold loops_in. rewrite list_filter_filter. f_equal.
    apply list_filter_iff. intros [pk t]. simpl. split; [by intros [? _]|].
    intros ->. split; [done|]. unfold source_. simpl. by apply bool_decide_eq_true. }
  rewrite Hsame in Hle, Heq.
  destruct (receive_loop fuel self _) as [[self1 out] c]. simpl in *.
  assert (loops_out [(eof_video, ticket_default)] = 0%nat) as Heof by done.
  destruct c; simpl; rewrite ?loops_out_app, ?Heof; (split; [lia|]); try done.
  intros _. by apply Heq.
Qed.

(** X16. No ticket is made up: every frame the worker emits carries the ticket
    of an element of the source that is for this stream, and
    [loop_video] and [eof_video] carry a default-constructed ticket. *)
Theorem run_tickets_come_from_source fuel self source :
  Forall (λ e, if is_frame e
               then ∃ pk, (pk, e.2) ∈ source ∧ stream_index (deref pk) = index_ self
               else e.2 = ticket_default)
    (run fuel self source).1.2.
Proof.
  unfold run.
  assert (∀ s l, Forall (λ e, if is_frame e then ∃ pk, (pk, e.2) ∈ l
                              else e.2 = ticket_default)
                   (receive_loop fuel s l).1.2) as Hloop.
  { intros s l. revert s. induction l as [|element rest IH]; intros s; simpl; [constructor|].
    pose proof (handle_elements fuel s element) as Hh.
    destruct (handle fuel s element) as [[s1 out] c]. simpl in *.
    assert (Forall (λ e, if is_frame e then ∃ pk, (pk, e.2) ∈ element :: rest
                         else e.2 = ticket_default) out) as Hout.
    { eapply Forall_impl; [exact Hh|]. intros e [[p ->]| ->]; simpl; [|done].
      exists element.1. destruct element. left. }
    specialize (IH s1).
    destruct c; simpl; try done.
    destruct (receive_loop fuel s1 rest) as [[s2 out2] c2]. simpl in *.
    apply Forall_app. split; [done|].
    eapply Forall_impl; [exact IH|]. intros e. simpl.
    destruct (is_frame e); [|done]. intros [pk Hin]. exists pk. by right. }
  specialize (Hloop self (filter (λ e, source_ self e = true) source)).
  assert (Forall (λ e, if is_frame e
                       then ∃ pk, (pk, e.2) ∈ source
                                  ∧ stream_index (deref pk) = index_ self
                       else e.2 = ticket_default)
            (receive_loop fuel self (filter (λ e, source_ self e = true) source)).1.2)
    as Hmine.
  { eapply Forall_impl; [exact Hloop|]. intros e. simpl.
    destruct (is_frame e); [|done]. intros [pk Hin].
    apply list_elem_of_filter in Hin as [Hsrc Hin]. exists pk. split; [done|].
    unfold source_ in Hsrc. simpl in Hsrc. by apply bool_decide_eq_true in Hsrc. }
  destruct (receive_loop fuel self _) as [[self1 out] c]. simpl in *.
  destruct c; simpl; try done; apply Forall_app; split; try done;
    by apply Forall_singleton.
Qed.

End general.
End run_spec.

(** ** The memory the worker shares with the holders of its frames *)

Module memory_spec.
Import video_decoder video_decoder_facts video_decoder_more dup_frame_facts run_spec.

Section general.
Context `{!externals}.

Lemma preserved_refl m : preserved m m.
Proof. by repeat split. Qed.

Lemma preserved_trans m1 m2 m3 : preserved m1 m2 → preserved m2 m3 → preserved m1 m3.
Proof.
  intros (Hb & Hf & Hd) (Hb' & Hf' & Hd'). split; [|split].
  - intros r sz Hr. by apply Hb', Hb.
  - intros a f Ha. by apply Hf', Hf.
  - congruence.
Qed.

(** What a duplication touches. *)
Lemma dup_frame_footprint m a f m1 p :
  allocator_sound →
  frames m !! a = Some f →
  dup_frame m a = Some (m1, p) →
  use_count p = 1%nat ∧ get p = a
  ∧ (∀ r, r ∈ buffers p → blocks m !! r = None ∧ is_Some (blocks m1 !! r))
  ∧ (∀ r, r ∉ buffers p → blocks m1 !! r = blocks m !! r)
  ∧ freed m1 = freed m
  ∧ ∃ d1, frames m1 = <[a := set_data f d1]> (frames m)
          ∧ length d1 = length (data f)
          ∧ drop (d_count (get_deleter p)) d1 = drop (d_count (get_deleter p)) (data f).
Proof.
  intros Hsound Hf Hdup.
  destruct (dup_frame_inv _ _ _ _ _ Hsound Hf Hdup)
    as (Hget & Hone & _ & Hcount
        & _ & _ & _ & _ & _ & _ & Hblk & Hother & Hfreed & d1 & Hfr & Hld1 & Hdrop).
  simpl in *. rewrite <-Hcount in *. fold (buffers p) in Hblk, Hother.
  split; [done|]. split; [done|]. split.
  { intros r Hr. apply list_elem_of_lookup in Hr as [n Hn].
    destruct (Hblk n r Hn) as (Hnone & ? & ? & _ & _ & Hsome).
    split; [done|]. by rewrite Hsome. }
  split; [done|]. split; [done|]. by exists d1.
Qed.

Lemma dup_frame_preserves m a f m1 p :
  allocator_sound →
  frames m !! a = Some f →
  dup_frame m a = Some (m1, p) →
  (∀ r sz, blocks m !! r = Some sz → blocks m1 !! r = Some sz)
  ∧ (∀ b, b ≠ a → frames m1 !! b = frames m !! b)
  ∧ freed m1 = freed m.
Proof.
  intros Hsound Hf Hdup.
  destruct (dup_frame_footprint _ _ _ _ _ Hsound Hf Hdup)
    as (_ & _ & Hnew & Hother & Hfreed & d1 & Hfr & _).
  split; [|split; [|done]].
  - intros r sz Hr. rewrite Hother; [done|].
    intros Hin. destruct (Hnew r Hin) as [Hnone _]. congruence.
  - intros b Hb. rewrite Hfr. by apply lookup_insert_ne.
Qed.

Lemma alloc_frame_fresh m : frames m !! avcodec_alloc_frame m = None.
Proof.
  apply not_elem_of_dom. unfold avcodec_alloc_frame.
  pose proof (is_fresh (dom (frames m) ∪ {[0]})) as Hfresh. set_solver.
Qed.

Lemma decode_preserved self pkt : preserved (heap self) (heap (decode self pkt).1).
Proof.
  pose proof (decode_spec self pkt) as Hspec. simpl in Hspec.
  destruct (decode self pkt) as [self1 [| |a]]; simpl in *.
  - destruct Hspec as [_ ->]. apply preserved_refl.
  - destruct Hspec as (_ & _ & ->). apply preserved_refl.
  - destruct Hspec as (_ & _ & -> & ->). split; [done|]. split; [|done].
    simpl. intros b f Hb. rewrite lookup_insert_ne; [done|].
    intros <-. by rewrite alloc_frame_fresh in Hb.
Qed.

(** A decode and the duplication of its frame, together. *)
Lemma decode_dup_preserved self pkt self1 a m p :
  allocator_sound →
  decode self pkt = (self1, decoded_frame a) →
  dup_frame (heap self1) a = Some (m, p) →
  preserved (heap self) m.
Proof.
  intros Hsound Hdec Hdup.
  pose proof (decode_spec self pkt) as Hspec. simpl in Hspec.
  rewrite Hdec in Hspec. simpl in Hspec. destruct Hspec as (_ & _ & Ha & Hheap).
  assert (frames (heap self1) !! a
          = Some (picture (avcodec_decode_video2 (codec_context_ self) pkt).2)) as Hf
    by (rewrite Hheap; simpl; apply lookup_insert_eq).
  destruct (dup_frame_preserves _ _ _ _ _ Hsound Hf Hdup) as (Hb & Hfr & Hfreed).
  rewrite Hheap in Hb, Hfr, Hfreed. simpl in *.
  split; [by auto|]. split; [|done].
  intros b f Hbf. assert (b ≠ a) as Hne.
  { intros ->. rewrite Ha in Hbf. by rewrite alloc_frame_fresh in Hbf. }
  rewrite Hfr by done. by rewrite lookup_insert_ne.
Qed.

Lemma flush_delayed_preserved fuel self ticket :
  allocator_sound →
  preserved (heap self) (heap (flush_delayed fuel self ticket).1.1).
Proof.
  intros Hsound. revert self. induction fuel as [|fuel IH]; intros self; simpl.
  { apply preserved_refl. }
  pose proof (decode_preserved self flush_pkt) as Hd.
  destruct (decode self flush_pkt) as [self1 [| |a]] eqn:Hdec; simpl in *; try done.
  destruct (dup_frame (heap self1) a) as [[m p]|] eqn:Hdup; simpl; [|done].
  pose proof (decode_dup_preserved _ _ _ _ _ _ Hsound Hdec Hdup) as Hdd.
  specialize (IH (set_heap self1 m)).
  destruct (flush_delayed fuel (set_heap self1 m) ticket) as [[self2 out] c].
  simpl in *. by eapply preserved_trans.
Qed.

Lemma handle_preserved fuel self element :
  allocator_sound →
  preserved (heap self) (heap (handle fuel self element).1.1).
Proof.
  intros Hsound. unfold handle.
  destruct (decide (element.1 = loop_packet (index_ self))).
  - case_decide; [|apply preserved_refl].
    pose proof (flush_delayed_preserved fuel self element.2 Hsound) as Hf.
    destruct (flush_delayed fuel self element.2) as [[self1 out] c].
    simpl in *. by destruct c.
  - destruct (decide (element.1 = eof_packet (index_ self))); [apply preserved_refl|].
    pose proof (decode_preserved self (deref element.1)) as Hd.
    destruct (decode self (deref element.1)) as [self1 [| |a]] eqn:Hdec;
      simpl in *; try done.
    destruct (dup_frame (heap self1) a) as [[m p]|] eqn:Hdup; simpl; [|done].
    by eapply decode_dup_preserved.
Qed.

Lemma receive_loop_preserved fuel self source :
  allocator_sound →
  preserved (heap self) (heap (receive_loop fuel self source).1.1).
Proof.
  intros Hsound. revert self.
  induction source as [|element rest IH]; intros self; simpl; [apply preserved_refl|].
  pose proof (handle_preserved fuel self element Hsound) as Hh.
  destruct (handle fuel self element) as [[self1 out] c]. simpl in *.
  specialize (IH self1). destruct c; simpl; try done.
  destruct (receive_loop fuel self1 rest) as [[self2 out2] c2]. simpl in *.
  by eapply preserved_trans.
Qed.

(** X17. The worker only adds to the memory: over any run it frees nothing,
    every block that was allocated is still allocated with its size, and
    every frame object that existed is as it was. So the blocks and the
    frame object of a frame emitted earlier are what its deleter will
    need, however far the decode loop has gone on since. *)
Theorem run_preserves_memory fuel self source :
  allocator_sound →
  let m' := heap (run fuel self source).1.1 in
  preserved (heap self) m'
  ∧ ∀ bufs a, (∀ r, r ∈ bufs → is_Some (blocks (heap self) !! r)) →
              is_Some (frames (heap self) !! a) →
              keeps (heap self) m' bufs a.
Proof.
  intros Hsound. simpl.
  assert (preserved (heap self) (heap (run fuel self source).1.1)) as Hpres.
  { unfold run.
    pose proof (receive_loop_preserved fuel self
                  (filter (λ e, source_ self e = true) source) Hsound) as Hl.
    destruct (receive_loop fuel self _) as [[self1 out] c]. simpl in *.
    by destruct c. }
  split; [exact Hpres|].
  destruct Hpres as (Hb & Hf & _).
  intros bufs a Hlive [f Ha]. split.
  - intros r Hr. destruct (Hlive r Hr) as [sz Hsz]. by rewrite Hsz, (Hb r sz Hsz).
  - by rewrite Ha, (Hf a f Ha).
Qed.

(** X18. Duplication changes nothing of a frame but the plane pointers: the
    duplicated frame is the decoder's frame object itself, with one
    holder; strides, format, size and flags are what they were, as are
    the pointers of the planes the pixel format does not have; no other
    frame object is touched. *)
Theorem dup_frame_swaps_plane_pointers m a f m1 p :
  allocator_sound →
  frames m !! a = Some f →
  dup_frame m a = Some (m1, p) →
  get p = a ∧ use_count p = 1%nat
  ∧ (∃ f1, frames m1 !! a = Some f1
           ∧ linesize f1 = linesize f ∧ format f1 = format f
           ∧ width f1 = width f ∧ height f1 = height f
           ∧ interlaced_frame f1 = interlaced_frame f
           ∧ repeat_pict f1 = repeat_pict f
           ∧ length (data f1) = length (data f)
           ∧ ∀ n, (length (planes (get_pixel_format_desc (format f) (width f) (height f)))
                   ≤ n)%nat →
                  data f1 !! n = data f !! n)
  ∧ ∀ b, b ≠ a → frames m1 !! b = frames m !! b.
Proof.
  intros Hsound Hf Hdup.
  destruct (dup_frame_inv _ _ _ _ _ Hsound Hf Hdup) as (_ & _ & _ & Hcount & _).
  destruct (dup_frame_footprint _ _ _ _ _ Hsound Hf Hdup)
    as (Hone & Hget & _ & _ & _ & d1 & Hfr & Hlen & Hdrop).
  simpl in Hcount. rewrite Hcount in Hdrop.
  split; [done|]. split; [done|]. split.
  - exists (set_data f d1). rewrite Hfr, lookup_insert_eq. simpl.
    repeat (split; [done|]). intros n Hn.
    set (count := length (planes _)) in *.
    replace n with (count + (n - count))%nat by lia.
    by rewrite <-!lookup_drop, Hdrop.
  - intros b Hb. rewrite Hfr. by apply lookup_insert_ne.
Qed.

Lemma release_sole_holder (p : safe_ptr) m :
  use_count p = 1%nat →
  release p m = m' ← run_deleter (get_deleter p) m; Some (set_use_count p 0, m').
Proof. intros Hone. unfold release. by rewrite Hone. Qed.

(** X19. Two frames duplicated one after the other can be released in either
    order: both orders free the blocks of both, each once, put the plane
    pointers of both frame objects back, and end with the blocks and the
    frame objects that were there before the first duplication. *)
Theorem release_order_independent m a b f g m1 p m2 q :
  allocator_sound →
  a ≠ b →
  frames m !! a = Some f →
  frames m !! b = Some g →
  dup_frame m a = Some (m1, p) →
  dup_frame m1 b = Some (m2, q) →
  (∀ r, r ∈ buffers p → r ∉ buffers q)
  ∧ ∃ mpq mqp,
      release_all [p; q] m2 = Some mpq
      ∧ release_all [q; p] m2 = Some mqp
      ∧ blocks mpq = blocks m ∧ frames mpq = frames m
      ∧ blocks mqp = blocks m ∧ frames mqp = frames m
      ∧ freed mpq = freed m ++ buffers p ++ buffers q
      ∧ freed mqp = freed m ++ buffers q ++ buffers p.
Proof.
  intros Hsound Hab Hf Hg Hdupa Hdupb.
  destruct (dup_frame_footprint _ _ _ _ _ Hsound Hf Hdupa)
    as (Honep & _ & Hnewp & Hotherp & Hfreedp & d1 & Hfr1 & _).
  assert (frames m1 !! b = Some g) as Hg1
    by (rewrite Hfr1, lookup_insert_ne; done).
  destruct (dup_frame_footprint _ _ _ _ _ Hsound Hg1 Hdupb)
    as (Honeq & _ & Hnewq & Hotherq & Hfreedq & d2 & Hfr2 & _).
  assert (∀ r, r ∈ buffers p → r ∉ buffers q) as Hdisj.
  { intros r Hp Hq. destruct (Hnewp r Hp) as [_ [sz Hsz]].
    destruct (Hnewq r Hq) as [Hnone _]. congruence. }
  split; [exact Hdisj|].
  assert (∀ mx, (∀ r, blocks mx !! r
                      = if decide (r ∈ buffers p) then None
                        else if decide (r ∈ buffers q) then None
                        else blocks m2 !! r) →
                blocks mx = blocks m) as Hblocks.
  { intros mx Hmx. apply map_eq. intros r. rewrite Hmx.
    destruct (decide (r ∈ buffers p)) as [Hp|Hp]; [by destruct (Hnewp r Hp) as [-> _]|].
    destruct (decide (r ∈ buffers q)) as [Hq|Hq].
    - destruct (Hnewq r Hq) as [Hnone _]. by rewrite <-Hotherp, Hnone.
    - by rewrite Hotherq, Hotherp. }
  assert (∀ fs, fs = <[a := f]> (<[b := g]> (frames m2)) → fs = frames m) as Hframes.
  { intros fs ->. rewrite Hfr2, Hfr1. apply map_eq. intros c.
    destruct (decide (c = a)) as [->|Hca].
    - by rewrite lookup_insert_eq.
    - rewrite lookup_insert_ne by done.
      destruct (decide (c = b)) as [->|Hcb]; [by rewrite lookup_insert_eq|].
      by rewrite !lookup_insert_ne. }
  (* [p] first *)
  destruct (run_deleter_spec m a f m1 p m2 Hsound Hf Hdupa)
    as (m3 & Hrun3 & Hblk3 & Hfr3 & Hfreed3).
  { split.
    - intros r Hr. apply Hotherq. by apply Hdisj.
    - rewrite Hfr2. by apply lookup_insert_ne. }
  destruct (run_deleter_spec m1 b g m2 q m3 Hsound Hg1 Hdupb)
    as (m4 & Hrun4 & Hblk4 & Hfr4 & Hfreed4).
  { split.
    - intros r Hr. rewrite Hblk3. fold (buffers p). case_decide as Hp; [|done].
      by apply Hdisj in Hp.
    - rewrite Hfr3. by apply lookup_insert_ne. }
  (* [q] first *)
  destruct (run_deleter_spec m1 b g m2 q m2 Hsound Hg1 Hdupb)
    as (m3' & Hrun3' & Hblk3' & Hfr3' & Hfreed3'); [by split|].
  destruct (run_deleter_spec m a f m1 p m3' Hsound Hf Hdupa)
    as (m4' & Hrun4' & Hblk4' & Hfr4' & Hfreed4').
  { split.
    - intros r Hr. rewrite Hblk3'. fold (buffers q). case_decide as Hq.
      + by apply Hdisj in Hr.
      + apply Hotherq. by apply Hdisj.
    - rewrite Hfr3', Hfr2. rewrite !lookup_insert_ne by done. done. }
  fold (buffers p) in Hblk3, Hfreed3, Hblk4', Hfreed4'.
  fold (buffers q) in Hblk4, Hfreed4, Hblk3', Hfreed3'.
  exists m4, m4'. simpl.
  rewrite !release_sole_holder by done.
  rewrite Hrun3, Hrun3'. simpl. rewrite !release_sole_holder by done.
  rewrite Hrun4, Hrun4'. simpl.
  split; [done|]. split; [done|].
  split.
  { apply Hblocks. intros r. rewrite Hblk4, Hblk3.
    destruct (decide (r ∈ buffers q)), (decide (r ∈ buffers p)); done. }
  split.
  { apply Hframes. rewrite Hfr4, Hfr3. by apply insert_insert_ne. }
  split.
  { apply Hblocks. intros r. by rewrite Hblk4', Hblk3'. }
  split.
  { apply Hframes. by rewrite Hfr4', Hfr3'. }
  split.
  - by rewrite Hfreed4, Hfreed3, Hfreedq, Hfreedp, <-app_assoc.
  - by rewrite Hfreed4', Hfreed3', Hfreedq, Hfreedp, <-app_assoc.
Qed.

End general.
End memory_spec.

(** ** The properties above at concrete inputs *)

Module more_witnesses.

Section output_sample.
Import output output_more output_sample.
#[local] Existing Instance output_sample.ext.

Lemma add_registers_witness :
  let self := make [(1, accepting 1); (2, refusing 2)] None in
  let r := add 2 (clocked 2) self in
  initialize (clocked 2) (format_desc_ self) (channel_index_ self) = true
  ∧ r.2 = returns
  ∧ std_map.find 2 (consumers_ r.1.1) = Some (clocked 2)
  ∧ (∀ j, j ≠ 2 → std_map.find j (consumers_ r.1.1) = std_map.find j (consumers_ self))
  ∧ initializations_of r.1.2 = [(2, format_desc_ self, channel_index_ self)]
  ∧ initializations_of (under_lock false r.1.2) = []
  ∧ (std_map.wf (consumers_ self) → std_map.wf (consumers_ r.1.1)).
Proof.
  split; [reflexivity|].
  exact (output_more_spec.add_registers 2 (clocked 2)
           (make [(1, accepting 1); (2, refusing 2)] None) eq_refl).
Defined.

Lemma add_failed_leaves_index_free_witness :
  let self := make [(1, accepting 1); (2, refusing 2)] None in
  let r := add 2 (stubborn 2) self in
  initialize (stubborn 2) (format_desc_ self) (channel_index_ self) = false
  ∧ r.2 = throws
  ∧ r.1.1 = (remove 2 self).1
  ∧ std_map.find 2 (consumers_ r.1.1) = None
  ∧ (∀ j, j ≠ 2 → std_map.find j (consumers_ r.1.1) = std_map.find j (consumers_ self))
  ∧ r.1.2 = (remove 2 self).2
            ++ [ev_initialize 2 (format_desc_ self) (channel_index_ self)].
Proof.
  split; [reflexivity|].
  exact (output_more_spec.add_failed_leaves_index_free 2 (stubborn 2)
           (make [(1, accepting 1); (2, refusing 2)] None) eq_refl).
Defined.

Lemma add_then_remove_witness :
  let self := make [(1, accepting 1)] (Some 5000) in
  std_map.find (index (clocked 2)) (consumers_ self) = None
  ∧ initialize (clocked 2) (format_desc_ self) (channel_index_ self) = true
  ∧ (remove_consumer (clocked 2) (add_consumer (clocked 2) self).1.1).1 = self.
Proof.
  split; [reflexivity|]. split; [reflexivity|].
  exact (output_more_spec.add_then_remove (clocked 2)
           (make [(1, accepting 1)] (Some 5000)) eq_refl eq_refl).
Defined.

Lemma format_change_then_delivery_witness :
  let self := make [(1, accepting 1); (2, stubborn 2); (3, refusing 3)] (Some 5000) in
  let self1 := (dispatch 0 self (Some pal_frame) x720p5000).1 in
  let r := dispatch 100 self1 (Some hd_frame) x720p5000 in
  format_change_tick self (Some pal_frame) x720p5000 pal_frame
  ∧ format_desc_neq x720p5000 x720p5000 = false
  ∧ frame_size hd_frame = desc_size x720p5000
  ∧ sends_of r.2
    = (λ p, (p.1, hd_frame))
      <$> filter (λ p, initialize p.2 x720p5000 p.1 = true) (consumers_ self)
  ∧ initializations_of r.2 = []
  ∧ format_desc_ r.1 = x720p5000.
Proof.
  assert (format_change_tick
            (make [(1, accepting 1); (2, stubborn 2); (3, refusing 3)] (Some 5000))
            (Some pal_frame) x720p5000 pal_frame) as Htick by (by repeat split).
  split; [exact Htick|]. split; [reflexivity|]. split; [reflexivity|].
  exact (ticks_spec.format_change_then_delivery 0 100 _ _ pal_frame hd_frame x720p5000
           Htick eq_refl eq_refl).
Defined.

Lemma steady_ticks_do_not_drift_witness :
  let self := make [(1, accepting 1); (2, accepting 2)] None in
  let nows := [1000; 90000; 90001] in
  let r := ticks self ((λ now, (now, Some pal_frame, pal)) <$> nows) in
  delivery_tick self (Some pal_frame) pal pal_frame
  ∧ std_map.wf (consumers_ self)
  ∧ steady pal_frame (consumers_ self)
  ∧ consumers_ r.1 = consumers_ self
  ∧ time_ r.1 = Some (1000 + Z.of_nat 3 * period (format_desc_ self))
  ∧ waits_of r.2 = deadlines (1000 + period (format_desc_ self))
                     (period (format_desc_ self)) 2
  ∧ clock_reads r.2 = 1%nat.
Proof.
  assert (std_map.wf [(1, accepting 1); (2, accepting 2)]) as Hwf
    by (repeat constructor).
  assert (steady pal_frame [(1, accepting 1); (2, accepting 2)]) as Hsteady
    by (by repeat constructor).
  assert (delivery_tick (make [(1, accepting 1); (2, accepting 2)] None)
            (Some pal_frame) pal pal_frame) as Htick by (by repeat split).
  split; [exact Htick|]. split; [exact Hwf|]. split; [exact Hsteady|].
  exact (ticks_spec.steady_ticks_do_not_drift
           (make [(1, accepting 1); (2, accepting 2)] None) pal_frame pal
           [1000; 90000; 90001] Htick Hwf Hsteady).
Defined.

Lemma clocked_tick_does_not_pace_witness :
  let self := make [(1, accepting 1); (2, clocked 2)] (Some 5000) in
  let r := dispatch 7000 self (Some pal_frame) pal in
  delivery_tick self (Some pal_frame) pal pal_frame
  ∧ std_map.wf (consumers_ self)
  ∧ (2, clocked 2) ∈ consumers_ self
  ∧ (2, clocked 2) ∈ consumers_ r.1
  ∧ time_ r.1 = time_ self
  ∧ waits_of r.2 = []
  ∧ clock_reads r.2 = 0%nat.
Proof.
  assert (std_map.wf [(1, accepting 1); (2, clocked 2)]) as Hwf
    by (repeat constructor).
  assert ((2, clocked 2) ∈ [(1, accepting 1); (2, clocked 2)]) as Hin
    by (right; left).
  assert (delivery_tick (make [(1, accepting 1); (2, clocked 2)] (Some 5000))
            (Some pal_frame) pal pal_frame) as Htick by (by repeat split).
  split; [exact Htick|]. split; [exact Hwf|]. split; [exact Hin|].
  exact (ticks_spec.clocked_tick_does_not_pace 7000
           (make [(1, accepting 1); (2, clocked 2)] (Some 5000))
           (Some pal_frame) pal pal_frame 2 (clocked 2) Htick Hwf Hin eq_refl eq_refl).
Defined.

Lemma delivery_state_size_witness :
  let self := make [(1, refusing 1); (2, accepting 2); (12, accepting 12)] None in
  let r := dispatch 0 self (Some pal_frame) pal in
  delivery_tick self (Some pal_frame) pal pal_frame
  ∧ std_map.wf (consumers_ self)
  ∧ base.size (state_ r.1) = length (consumers_ r.1)
  ∧ dom (state_ r.1) = list_to_set ((λ p, "port/" +:+ pretty p.1) <$> consumers_ r.1).
Proof.
  assert (std_map.wf [(1, refusing 1); (2, accepting 2); (12, accepting 12)]) as Hwf
    by (repeat constructor).
  assert (delivery_tick
            (make [(1, refusing 1); (2, accepting 2); (12, accepting 12)] None)
            (Some pal_frame) pal pal_frame) as Htick by (by repeat split).
  split; [exact Htick|]. split; [exact Hwf|].
  exact (ticks_spec.delivery_state_size 0 _ _ _ _ Htick Hwf).
Defined.

End output_sample.

Section video_decoder_sample.
Import video_decoder video_decoder_more video_decoder_sample.
#[local] Existing Instance video_decoder_sample.ext.

Lemma run_ignores_other_streams_witness :
  let self := worker [got yuv_picture] 0 in
  let before := [(pkt [1], Some 1%nat)] in
  let after := [(pkt [2], Some 3%nat)] in
  stream_index (deref (eof_packet 1)) ≠ index_ self
  ∧ run 5 self (before ++ (eof_packet 1, Some 2%nat) :: after)
    = run 5 self (before ++ after).
Proof.
  assert (stream_index (deref (eof_packet 1)) ≠ index_ (worker [got yuv_picture] 0))
    as Hother by discriminate.
  split; [exact Hother|].
  exact (run_spec.run_ignores_other_streams 5 (worker [got yuv_picture] 0)
           [(pkt [1], Some 1%nat)] (eof_packet 1, Some 2%nat) [(pkt [2], Some 3%nat)]
           Hother).
Defined.

Lemma run_preserves_memory_witness :
  let self := worker [got yuv_picture; got yuv_picture] 0 in
  let source := [(pkt [1], Some 1%nat); (pkt [2], Some 2%nat)] in
  let m' := heap (run 5 self source).1.1 in
  allocator_sound
  ∧ size (blocks m') = 6%nat
  ∧ preserved (heap self) m'
  ∧ ∀ bufs a, (∀ r, r ∈ bufs → is_Some (blocks (heap self) !! r)) →
              is_Some (frames (heap self) !! a) →
              keeps (heap self) m' bufs a.
Proof.
  split; [exact dup_frame_spec.malloc_sound|]. split; [reflexivity|].
  exact (memory_spec.run_preserves_memory 5
           (worker [got yuv_picture; got yuv_picture] 0)
           [(pkt [1], Some 1%nat); (pkt [2], Some 2%nat)] dup_frame_spec.malloc_sound).
Defined.

Lemma dup_frame_swaps_plane_pointers_witness :
  ∃ m1 p,
    allocator_sound
    ∧ frames (one_frame yuv_picture) !! 1 = Some yuv_picture
    ∧ dup_frame (one_frame yuv_picture) 1 = Some (m1, p)
    ∧ get p = 1 ∧ use_count p = 1%nat
    ∧ (∃ f1, frames m1 !! 1 = Some f1
             ∧ linesize f1 = linesize yuv_picture ∧ format f1 = format yuv_picture
             ∧ width f1 = width yuv_picture ∧ height f1 = height yuv_picture
             ∧ interlaced_frame f1 = interlaced_frame yuv_picture
             ∧ repeat_pict f1 = repeat_pict yuv_picture
             ∧ length (data f1) = length (data yuv_picture)
             ∧ ∀ n, (length (planes (get_pixel_format_desc (format yuv_picture)
                                       (width yuv_picture) (height yuv_picture)))
                     ≤ n)%nat →
                    data f1 !! n = data yuv_picture !! n)
    ∧ ∀ b, b ≠ 1 → frames m1 !! b = frames (one_frame yuv_picture) !! b.
Proof.
  assert (frames (one_frame yuv_picture) !! 1 = Some yuv_picture) as Hf
    by reflexivity.
  destruct (dup_frame (one_frame yuv_picture) 1) as [[m1 p]|] eqn:Hdup;
    [|discriminate Hdup].
  exists m1, p. split; [exact dup_frame_spec.malloc_sound|].
  split; [exact Hf|]. split; [reflexivity|].
  exact (memory_spec.dup_frame_swaps_plane_pointers _ _ _ _ _
           dup_frame_spec.malloc_sound Hf Hdup).
Defined.

Lemma release_order_independent_witness :
  let m := {| blocks := ∅; frames := {[ 1 := yuv_picture; 2 := yuv_picture ]};
              freed := [] |} in
  ∃ m1 p m2 q,
    allocator_sound
    ∧ (1 : Z) ≠ 2
    ∧ frames m !! 1 = Some yuv_picture
    ∧ frames m !! 2 = Some yuv_picture
    ∧ dup_frame m 1 = Some (m1, p)
    ∧ dup_frame m1 2 = Some (m2, q)
    ∧ (∀ r, r ∈ buffers p → r ∉ buffers q)
    ∧ ∃ mpq mqp,
        release_all [p; q] m2 = Some mpq
        ∧ release_all [q; p] m2 = Some mqp
        ∧ blocks mpq = blocks m ∧ frames mpq = frames m
        ∧ blocks mqp = blocks m ∧ frames mqp = frames m
        ∧ freed mpq = freed m ++ buffers p ++ buffers q
        ∧ freed mqp = freed m ++ buffers q ++ buffers p.
Proof.
  set (m := {| blocks := ∅; frames := {[ 1 := yuv_picture; 2 := yuv_picture ]};
               freed := [] |}).
  assert (frames m !! 1 = Some yuv_picture) as Hf by reflexivity.
  assert (frames m !! 2 = Some yuv_picture) as Hg by reflexivity.
  assert ((1 : Z) ≠ 2) as Hne by discriminate.
  destruct (dup_frame m 1) as [[m1 p]|] eqn:Hdupa; [|discriminate Hdupa].
  destruct (dup_frame m1 2) as [[m2 q]|] eqn:Hdupb.
  - exists m1, p, m2, q. split; [exact dup_frame_spec.malloc_sound|].
    split; [exact Hne|]. split; [exact Hf|]. split; [exact Hg|].
    split; [exact Hdupa|]. split; [exact Hdupb|].
    exact (memory_spec.release_order_independent _ _ _ _ _ _ _ _ _
             dup_frame_spec.malloc_sound Hne Hf Hg Hdupa Hdupb).
  - exfalso. vm_compute in Hdupa. injection Hdupa as <- <-. discriminate Hdupb.
Defined.

End video_decoder_sample.
End more_witnesses.
